(** * GenericInput: registry of sync classes and per-instance aggregation

    A shallow embedding of [src/inputs/GenericInput.js].

    - The module-level [registry] is a plain object, [{}].  Its own
      properties are a finite map from keys to sync classes; a read
      [registry[key]] that finds no own property falls back on
      [Object.prototype], so the names every object inherits
      ("constructor", "toString", ...) read as built-in values.  Sync
      classes are constructor functions; the code only ever compares them
      with [===], so they are modelled by their identity.  Every sync class
      and every built-in is truthy, hence [registry[key]] is falsy exactly
      when the key is neither bound nor inherited.
    - [this._syncs] is a plain object too, enumerated with [for ... in]; it
      is kept as the list of its own properties in enumeration order:
      array indices first, in ascending order, then the other keys in
      creation order.
    - Sync instances and event handlers live outside this file
      ([../core/EventHandler] and the sync classes).  Every call the code
      makes on them is appended to a chronological [trace]; objects are
      identified by references handed out by [new]. *)

From stdpp Require Import base gmap strings list.

(** ** Values *)

Definition ref := nat.

(** A sync class, identified by reference. *)
Definition Factory := nat.

(** The values that may be passed as options. *)
Inductive value : Type :=
  | VUndefined
  | VNull
  | VBool (b : bool)
  | VNum (n : Z)
  | VStr (s : string)
  | VObj (o : ref).

Global Instance value_eq_dec : EqDecision value.
Proof. solve_decision. Defined.

(** JavaScript truthiness, as used by [if (options)]. *)
Definition truthy (v : value) : bool :=
  match v with
  | VUndefined | VNull => false
  | VBool b => b
  | VNum n => negb (n =? 0)%Z
  | VStr s => negb (String.eqb s EmptyString)
  | VObj _ => true
  end.

(** The [syncs] argument: an [Array] of keys, an [Object] whose enumerable
    properties are listed in enumeration order, or any other value
    (neither [instanceof Array] nor [instanceof Object]). *)
Inductive Syncs : Type :=
  | SyncArray (keys : list string)
  | SyncObject (fields : list (string * value))
  | SyncOther (v : value).

Definition syncs_truthy (syncs : Syncs) : bool :=
  match syncs with
  | SyncArray _ | SyncObject _ => true
  | SyncOther v => truthy v
  end.

(** ** What every object inherits from [Object.prototype] *)

(** The built-in values found on [Object.prototype]: the [Object]
    function under "constructor", and values that cannot be used with
    [new] (methods that are not constructors, and [Object.prototype]
    itself under "__proto__"). *)
Inductive builtin : Type :=
  | ObjectFunction
  | NotConstructor.

Global Instance builtin_eq_dec : EqDecision builtin.
Proof. solve_decision. Defined.

Definition object_prototype_names : list string :=
  ["toString"; "toLocaleString"; "valueOf"; "hasOwnProperty";
   "isPrototypeOf"; "propertyIsEnumerable"; "__defineGetter__";
   "__defineSetter__"; "__lookupGetter__"; "__lookupSetter__"; "__proto__"].

(** The value a plain object with no own property [key] reads under
    [key]; [None] stands for [undefined]. *)
Definition inherited (key : string) : option builtin :=
  if decide (key = "constructor") then Some ObjectFunction
  else if decide (key ∈ object_prototype_names) then Some NotConstructor
  else None.

(** What [registry[key]] can be: a registered sync class or a built-in. *)
Inductive class_value : Type :=
  | Class (F : Factory)
  | Builtin (b : builtin).

Global Instance class_value_eq_dec : EqDecision class_value.
Proof. solve_decision. Defined.

(** [registry[key]]: the own property if there is one, else what
    [Object.prototype] provides; [None] stands for [undefined]. *)
Definition registry_get (reg : gmap string Factory) (key : string)
    : option class_value :=
  match reg !! key with
  | Some F => Some (Class F)
  | None => Builtin <$> inherited key
  end.

(** ** Objects used as maps *)

(** The array index a property key denotes, if any: a canonical decimal
    numeral below [2^32 - 1]. *)
Definition digit (a : Ascii.ascii) : option N :=
  let n := Ascii.N_of_ascii a in
  if ((48 <=? n) && (n <=? 57))%N then Some (n - 48)%N else None.

Fixpoint digits (s : string) (acc : N) : option N :=
  match s with
  | EmptyString => Some acc
  | String a s' =>
      match digit a with
      | Some d => digits s' (10 * acc + d)%N
      | None => None
      end
  end.

Definition array_index (key : string) : option N :=
  match key with
  | EmptyString => None
  | String a rest =>
      if (Ascii.N_of_ascii a =? 48)%N && negb (String.eqb rest EmptyString)
      then None
      else match digits key 0 with
           | Some n => if (n <? 2 ^ 32 - 1)%N then Some n else None
           | None => None
           end
  end.

(** Whether a property created under [key] is enumerated before an
    existing property [k]. *)
Definition precedes (key k : string) : bool :=
  match array_index key, array_index k with
  | Some i, Some j => (i <? j)%N
  | Some _, None => true
  | None, _ => false
  end.

Section Props.
Context {A : Type}.

(** [o[key]] on own properties: [None] when there is none. *)
Fixpoint prop_get (key : string) (o : list (string * A)) : option A :=
  match o with
  | [] => None
  | (k, x) :: o' => if decide (k = key) then Some x else prop_get key o'
  end.

(** Overwriting an existing property: it keeps its place. *)
Fixpoint prop_replace (key : string) (v : A) (o : list (string * A))
  : list (string * A) :=
  match o with
  | [] => []
  | (k, x) :: o' =>
      if decide (k = key) then (key, v) :: o' else (k, x) :: prop_replace key v o'
  end.

(** Creating a property: an array index goes among the indices, in
    ascending order; any other key is enumerated last. *)
Fixpoint prop_create (key : string) (v : A) (o : list (string * A))
  : list (string * A) :=
  match o with
  | [] => [(key, v)]
  | (k, x) :: o' =>
      if precedes key k then (key, v) :: (k, x) :: o'
      else (k, x) :: prop_create key v o'
  end.

(** [o[key] = v]. *)
Definition prop_set (key : string) (v : A) (o : list (string * A))
  : list (string * A) :=
  match prop_get key o with
  | Some _ => prop_replace key v o
  | None => prop_create key v o
  end.

(** The keys visited by [for (var key in o)]. *)
Definition prop_keys (o : list (string * A)) : list string := o.*1.
End Props.

(** ** Outcomes and state *)

Inductive error : Type :=
  | Error (msg : string)
  | TypeError.

Inductive completion (A : Type) : Type :=
  | Normal (a : A)
  | Throw (e : error).
Arguments Normal {A} a.
Arguments Throw {A} e.

(** Calls made on the external collaborators. *)
Inductive call : Type :=
  | NewEventHandler (h : ref)              (* h = new EventHandler() *)
  | SetInputHandler (h : ref)              (* EventHandler.setInputHandler(this, h) *)
  | SetOutputHandler (h : ref)             (* EventHandler.setOutputHandler(this, h) *)
  | New (r : ref) (F : Factory) (options : value)   (* r = new F(options) *)
  | SetOptions (r : ref) (options : value) (* r.setOptions(options) *)
  | Subscribe (x y : ref)                  (* x.subscribe(y) *)
  | Unsubscribe (x y : ref).               (* x.unsubscribe(y) *)

Global Instance call_eq_dec : EqDecision call.
Proof. solve_decision. Defined.

(** What a property of [this._syncs] holds: a source, that is an instance
    built by a sync class, or the plain object that [new Object(from)]
    returns ([from] itself when it is an object, a new object otherwise).
    A plain object has none of the methods of a source. *)
Inductive held : Type :=
  | Source (r : ref)
  | Plain (from : value).

Global Instance held_eq_dec : EqDecision held.
Proof. solve_decision. Defined.

Definition source_of (h : held) : option ref :=
  match h with
  | Source r => Some r
  | Plain _ => None
  end.

(** The fields of a [GenericInput] instance. *)
Record GenericInput : Type := mkGenericInput {
  _eventInput : ref;
  _eventOutput : ref;
  _syncs : list (string * held)
}.

(** The module-level registry (its own properties), the allocator, the
    calls made so far, and the instance the methods run on. *)
Record State : Type := mkState {
  registry : gmap string Factory;
  next_ref : ref;
  trace : list call;
  this : GenericInput
}.

Definition set_registry (f : gmap string Factory → gmap string Factory)
    (s : State) : State :=
  mkState (f (registry s)) (next_ref s) (trace s) (this s).

Definition set_this (f : GenericInput → GenericInput) (s : State) : State :=
  mkState (registry s) (next_ref s) (trace s) (f (this s)).

Definition set_eventInput (h : ref) (g : GenericInput) : GenericInput :=
  mkGenericInput h (_eventOutput g) (_syncs g).

Definition set_eventOutput (h : ref) (g : GenericInput) : GenericInput :=
  mkGenericInput (_eventInput g) h (_syncs g).

Definition set_syncs (f : list (string * held) → list (string * held))
    (g : GenericInput) : GenericInput :=
  mkGenericInput (_eventInput g) (_eventOutput g) (f (_syncs g)).

(** ** The monad of the methods: state that survives a throw *)

Definition M (A : Type) : Type := State → State * completion A.

Definition ret {A} (a : A) : M A := λ s, (s, Normal a).

Definition throw {A} (e : error) : M A := λ s, (s, Throw e).

Definition bind {A B} (m : M A) (k : A → M B) : M B :=
  λ s, match m s with
       | (s', Normal a) => k a s'
       | (s', Throw e) => (s', Throw e)
       end.

Declare Scope js_scope.
Delimit Scope js_scope with js.
Notation "x <- m ;; k" := (bind m (λ x, k))
  (at level 100, m at next level, right associativity) : js_scope.
Notation "m ;;; k" := (bind m (λ _, k))
  (at level 100, right associativity) : js_scope.
Open Scope js_scope.

Definition gets {A} (f : State → A) : M A := λ s, (s, Normal (f s)).

Definition modify (f : State → State) : M unit := λ s, (f s, Normal tt).

(** Record one call on a collaborator. *)
Definition emit (c : call) : M unit :=
  modify (λ s, mkState (registry s) (next_ref s) (trace s ++ [c]) (this s)).

(** Reserve the reference of the object a [new] expression returns. *)
Definition alloc : M ref :=
  λ s, (mkState (registry s) (S (next_ref s)) (trace s) (this s),
        Normal (next_ref s)).

(** The receiver of a method call made on [this._syncs[key]].  Only a
    source has the methods.  With a plain object the method is missing;
    with no own property the value read is [undefined] or a built-in
    inherited from [Object.prototype], which has no such method either:
    in all those cases the call is a [TypeError]. *)
Definition receiver (o : option held) : M ref :=
  match o with
  | Some (Source r) => ret r
  | Some (Plain _) | None => throw TypeError
  end.

(** A loop whose body runs once per element; a throw leaves the loop. *)
Fixpoint for_each {A} (l : list A) (body : A → M unit) : M unit :=
  match l with
  | [] => ret tt
  | a :: l' => body a ;;; for_each l' body
  end.

(** ** GenericInput.register *)

Definition conflict_message : string :=
  "this key is registered to a different sync class".

(** [syncObject] lists the enumerable properties of the argument, all of
    them sync classes, in enumeration order.  A redundant registration
    executes [return]; a built-in read from [Object.prototype] is
    identical to no sync class. *)
Fixpoint register (syncObject : list (string * Factory)) : M unit :=
  match syncObject with
  | [] => ret tt
  | (key, F) :: rest =>
      reg <- gets registry ;;
      match registry_get reg key with
      | Some c =>
          if decide (c = Class F) then ret tt
          else throw (Error conflict_message)
      | None =>
          modify (set_registry <[key := F]>) ;;;
          register rest
      end
  end.

(** ** Methods *)

(** [setOptions]: for every key of [this._syncs], call [setOptions] on
    what is stored there. *)
Definition setOptions (options : value) : M unit :=
  keys <- gets (λ s, prop_keys (_syncs (this s))) ;;
  for_each keys (λ key,
    sync <- gets (λ s, prop_get key (_syncs (this s))) ;;
    r <- receiver sync ;;
    emit (SetOptions r options)).

Definition subscribeInput (key : string) : M unit :=
  sync <- gets (λ s, prop_get key (_syncs (this s))) ;;
  r <- receiver sync ;;
  ei <- gets (λ s, _eventInput (this s)) ;;
  emit (Subscribe r ei) ;;;
  eo <- gets (λ s, _eventOutput (this s)) ;;
  emit (Subscribe eo r).

Definition unsubscribeInput (key : string) : M unit :=
  sync <- gets (λ s, prop_get key (_syncs (this s))) ;;
  r <- receiver sync ;;
  ei <- gets (λ s, _eventInput (this s)) ;;
  emit (Unsubscribe r ei) ;;;
  eo <- gets (λ s, _eventOutput (this s)) ;;
  emit (Unsubscribe eo r).

(** [new (registry[key])(options)]: a sync class builds a source; the
    built-in [Object] returns a plain object; any other built-in is not a
    constructor. *)
Definition construct (c : class_value) (options : value) : M held :=
  match c with
  | Class F =>
      r <- alloc ;;
      emit (New r F options) ;;;
      ret (Source r)
  | Builtin ObjectFunction => ret (Plain options)
  | Builtin NotConstructor => throw TypeError
  end.

Definition _addSingleInput (key : string) (options : value) : M unit :=
  reg <- gets registry ;;
  match registry_get reg key with
  | None => ret tt
  | Some c =>
      sync <- construct c options ;;
      modify (set_this (set_syncs (prop_set key sync))) ;;;
      subscribeInput key
  end.

Definition addInput (syncs : Syncs) : M unit :=
  match syncs with
  | SyncArray keys =>
      for_each keys (λ key, _addSingleInput key VUndefined)
  | SyncObject fields =>
      for_each (prop_keys fields) (λ key,
        _addSingleInput key (default VUndefined (prop_get key fields)))
  | SyncOther _ => ret tt
  end.

(** The constructor body, run on the freshly created [this]: it assigns
    all three fields before reading any. *)
Definition new_GenericInput (syncs : Syncs) (options : value) : M unit :=
  ei <- alloc ;;
  emit (NewEventHandler ei) ;;;
  modify (set_this (set_eventInput ei)) ;;;
  eo <- alloc ;;
  emit (NewEventHandler eo) ;;;
  modify (set_this (set_eventOutput eo)) ;;;
  emit (SetInputHandler ei) ;;;
  emit (SetOutputHandler eo) ;;;
  modify (set_this (set_syncs (λ _, []))) ;;;
  (if syncs_truthy syncs then addInput syncs else ret tt) ;;;
  (if truthy options then setOptions options else ret tt).

Definition DIRECTION_X : Z := 0.
Definition DIRECTION_Y : Z := 1.
Definition DIRECTION_Z : Z := 2.

(** ** Event delivery *)

(** Modelled from the spec: the event-emitter capability of
    [../core/EventHandler], which is not part of this file.  After
    [x.subscribe(sink)] the sink is one of the current subscribers of [x];
    [x.unsubscribe(sink)] removes it; an event emitted by [x] is delivered
    to all current subscribers of [x]. *)
Definition wire (w : gset (ref * ref)) (c : call) : gset (ref * ref) :=
  match c with
  | Subscribe x sink => w ∪ {[ (x, sink) ]}
  | Unsubscribe x sink => w ∖ {[ (x, sink) ]}
  | _ => w
  end.

Definition wiring (t : list call) : gset (ref * ref) := foldl wire ∅ t.

(** Modelled from the spec: an event emitted by [x] after the calls [t]
    reaches [sink]. *)
Definition delivers (t : list call) (x sink : ref) : bool :=
  bool_decide ((x, sink) ∈ wiring t).

(** ** Observations on the trace *)

(** The options passed to [r.setOptions], oldest first. *)
Fixpoint setOptions_calls (r : ref) (t : list call) : list value :=
  match t with
  | [] => []
  | SetOptions r' v :: t' =>
      if decide (r' = r) then v :: setOptions_calls r t'
      else setOptions_calls r t'
  | _ :: t' => setOptions_calls r t'
  end.

(** The sources currently stored in [this._syncs], in enumeration
    order. *)
Definition attached (s : State) : list ref :=
  omap source_of (_syncs (this s)).*2.

(** ** The per-key add step, in closed form *)

(** The state [_addSingleInput] leaves when the key is registered to [F]. *)
Definition attach (key : string) (F : Factory) (options : value) (s : State)
    : State :=
  let r := next_ref s in
  mkState (registry s) (S r)
    (trace s ++ [New r F options;
                 Subscribe r (_eventInput (this s));
                 Subscribe (_eventOutput (this s)) r])
    (set_syncs (prop_set key (Source r)) (this s)).

(** What [_addSingleInput] does, case by case on [registry[key]]. *)
Definition add_result (key : string) (options : value) (s : State)
    : State * completion unit :=
  match registry_get (registry s) key with
  | None => (s, Normal tt)
  | Some (Class F) => (attach key F options s, Normal tt)
  | Some (Builtin ObjectFunction) =>
      (set_this (set_syncs (prop_set key (Plain options))) s, Throw TypeError)
  | Some (Builtin NotConstructor) => (s, Throw TypeError)
  end.

(** The step on a key that reads no built-in. *)
Definition add_step (optf : string → value) (s : State) (key : string)
    : State :=
  match registry s !! key with
  | Some F => attach key F (optf key) s
  | None => s
  end.

(** Whether [registry[key]] reads a built-in of [Object.prototype]. *)
Definition reads_builtin (s : State) (key : string) : bool :=
  match registry s !! key, inherited key with
  | None, Some _ => true
  | _, _ => false
  end.

(** The keys [addInput] visits and the options it passes for each. *)
Definition keys_of (syncs : Syncs) : list string :=
  match syncs with
  | SyncArray keys => keys
  | SyncObject fields => prop_keys fields
  | SyncOther _ => []
  end.

Definition option_for (syncs : Syncs) (key : string) : value :=
  match syncs with
  | SyncObject fields => default VUndefined (prop_get key fields)
  | _ => VUndefined
  end.

(** The state after the five assignments and calls that open the
    constructor. *)
Definition initialised (s : State) : State :=
  let ei := next_ref s in
  let eo := S (next_ref s) in
  mkState (registry s) (S (S (next_ref s)))
    (trace s ++ [NewEventHandler ei; NewEventHandler eo;
                 SetInputHandler ei; SetOutputHandler eo])
    (mkGenericInput ei eo []).

(** The two conditional calls that close the constructor. *)
Definition add_part (syncs : Syncs) : M unit :=
  if syncs_truthy syncs then addInput syncs else ret tt.

Definition options_part (options : value) : M unit :=
  if truthy options then setOptions options else ret tt.

(** One turn of the loop of [setOptions]. *)
Definition options_turn (options : value) (key : string) : M unit :=
  sync <- gets (λ s, prop_get key (_syncs (this s))) ;;
  r <- receiver sync ;;
  emit (SetOptions r options).

(** The calls made while attaching a source: constructions and
    subscriptions only. *)
Definition is_attach_call (c : call) : bool :=
  match c with
  | New _ _ _ | Subscribe _ _ => true
  | _ => false
  end.

(** ** Well-formed states *)

Definition call_refs (c : call) : list ref :=
  match c with
  | NewEventHandler h | SetInputHandler h | SetOutputHandler h => [h]
  | New r _ _ | SetOptions r _ => [r]
  | Subscribe x y | Unsubscribe x y => [x; y]
  end.

(** [this._syncs] is an object (its keys are distinct), distinct keys hold
    distinct instances, and every reference in use was handed out by the
    allocator. *)
Definition wf (s : State) : Prop :=
  NoDup (prop_keys (_syncs (this s)))
  ∧ NoDup (attached s)
  ∧ Forall (λ r, r < next_ref s) (attached s)
  ∧ _eventInput (this s) < next_ref s
  ∧ _eventOutput (this s) < next_ref s
  ∧ Forall (λ c, Forall (λ r, r < next_ref s) (call_refs c)) (trace s).

Global Instance wf_dec s : Decision (wf s).
Proof. unfold wf. apply _. Defined.

(** Every property of [this._syncs] holds a source: no plain object has
    been stored there. *)
Definition only_sources (s : State) : Prop :=
  Forall (λ h, is_Some (source_of h)) (_syncs (this s)).*2.

Global Instance only_sources_dec s : Decision (only_sources s).
Proof. unfold only_sources. apply _. Defined.

(** ** Counting and the constructor in closed form *)




(** The state the constructor leaves when no key reads a built-in. *)
Definition constructed (syncs : Syncs) (options : value) (s : State) : State :=
  let s1 :=
    if syncs_truthy syncs
    then foldl (add_step (option_for syncs)) (initialised s) (keys_of syncs)
    else initialised s in
  if truthy options
  then mkState (registry s1) (next_ref s1)
         (trace s1 ++ map (λ r, SetOptions r options) (attached s1)) (this s1)
  else s1.

(** ** Example states *)

Definition blank : GenericInput := mkGenericInput 0 0 [].

Definition boot (reg : gmap string Factory) : State := mkState reg 0 [] blank.

Definition MouseInput : Factory := 1.
Definition TouchInput : Factory := 2.
Definition ScrollInput : Factory := 3.

Definition inputs : gmap string Factory :=
  <[ "touch" := TouchInput ]> {[ "mouse" := MouseInput ]}.

(** An aggregator built over the two registered classes, and one built
    with per-source options. *)
Definition studio : State :=
  (new_GenericInput (SyncArray ["mouse"; "touch"]) VUndefined (boot inputs)).1.

Definition propagate : value := VObj 7.



(** * Properties *)

(** ** Registration *)

Section Register.
Implicit Types (s : State) (key : string) (F G : Factory)
  (syncObject : list (string * Factory)).

(** The first entry is bound to the same class: the call returns at
    once, whatever follows in the object. *)
Lemma register_redundant_returns s key F rest :
  registry s !! key = Some F →
  register ((key, F) :: rest) s = (s, Normal tt).
Proof.
  intros Hk. cbn. unfold bind, gets, registry_get. rewrite Hk.
  by rewrite decide_True.
Qed.

Lemma register_conflict_throws s key F G rest :
  registry s !! key = Some G → G ≠ F →
  register ((key, F) :: rest) s = (s, Throw (Error conflict_message)).
Proof.
  intros Hk Hne. cbn. unfold bind, gets, registry_get. rewrite Hk.
  rewrite decide_False; [done|]. intros Heq. by inversion Heq.
Qed.

(** A name inherited from [Object.prototype] reads as a built-in, which
    is no sync class. *)
Lemma register_builtin_throws s key F b rest :
  registry s !! key = None → inherited key = Some b →
  register ((key, F) :: rest) s = (s, Throw (Error conflict_message)).
Proof.
  intros Hk Hb. cbn. unfold bind, gets, registry_get. by rewrite Hk, Hb.
Qed.

Lemma register_absent_inserts s key F rest :
  registry s !! key = None → inherited key = None →
  register ((key, F) :: rest) s
  = register rest (set_registry <[key := F]> s).
Proof.
  intros Hk Hb. cbn. unfold bind, gets, modify, registry_get.
  by rewrite Hk, Hb.
Qed.

(** The four ways an entry is handled. *)
Lemma register_cases s key F rest :
  (registry s !! key = Some F
   ∧ register ((key, F) :: rest) s = (s, Normal tt))
  ∨ (register ((key, F) :: rest) s = (s, Throw (Error conflict_message))
     ∧ ((∃ G, registry s !! key = Some G ∧ G ≠ F)
        ∨ (registry s !! key = None ∧ is_Some (inherited key))))
  ∨ (registry s !! key = None ∧ inherited key = None
     ∧ register ((key, F) :: rest) s
       = register rest (set_registry <[key := F]> s)).
Proof.
  destruct (registry s !! key) as [G|] eqn:Hreg.
  - destruct (decide (G = F)) as [->|Hne].
    + left. split; [done|]. by apply register_redundant_returns.
    + right; left. split; [by apply (register_conflict_throws _ _ _ G)|].
      left. by exists G.
  - destruct (inherited key) as [b|] eqn:Hb.
    + right; left. split; [by apply (register_builtin_throws _ _ _ b)|].
      right. split; [done|by eexists].
    + right; right. split; [done|]. split; [done|].
      by apply register_absent_inserts.
Qed.

(** The registry is append only: no call rebinds a key. *)
Lemma register_keeps_bound syncObject : ∀ s s' c key G,
  register syncObject s = (s', c) →
  registry s !! key = Some G →
  registry s' !! key = Some G.
Proof.
  induction syncObject as [|[k F] rest IH]; intros s s' c key G Hrun Hk.
  - cbn in Hrun. by inversion Hrun; subst.
  - destruct (register_cases s k F rest)
      as [[_ Hr]|[[Hr _]|(Hnone & _ & Hr)]]; rewrite Hr in Hrun.
    + by inversion Hrun; subst.
    + by inversion Hrun; subst.
    + eapply IH; [exact Hrun|]. cbn.
      rewrite lookup_insert_ne; [done|]. congruence.
Qed.

(** Only the registry is touched. *)
Lemma register_frame syncObject : ∀ s s' c,
  register syncObject s = (s', c) →
  next_ref s' = next_ref s ∧ trace s' = trace s ∧ this s' = this s.
Proof.
  induction syncObject as [|[k F] rest IH]; intros s s' c Hrun.
  - cbn in Hrun. by inversion Hrun; subst.
  - destruct (register_cases s k F rest)
      as [[_ Hr]|[[Hr _]|(Hnone & _ & Hr)]]; rewrite Hr in Hrun.
    + by inversion Hrun; subst.
    + by inversion Hrun; subst.
    + by apply IH in Hrun.
Qed.

Lemma register_outcome syncObject : ∀ s,
  (register syncObject s).2 = Normal tt
  ∨ (register syncObject s).2 = Throw (Error conflict_message).
Proof.
  induction syncObject as [|[k F] rest IH]; intros s; [by left|].
  destruct (register_cases s k F rest)
    as [[_ Hr]|[[Hr _]|(Hnone & _ & Hr)]]; rewrite Hr.
  - by left.
  - by right.
  - apply IH.
Qed.

(** Keys outside the object are left alone. *)
Lemma register_other_keys syncObject : ∀ s key,
  key ∉ syncObject.*1 →
  registry (register syncObject s).1 !! key = registry s !! key.
Proof.
  induction syncObject as [|[k F] rest IH]; intros s key Hkey; [done|].
  cbn in Hkey. apply not_elem_of_cons in Hkey as [Hne Hkey].
  destruct (register_cases s k F rest)
    as [[_ Hr]|[[Hr _]|(Hnone & _ & Hr)]]; rewrite Hr; [done|done|].
  rewrite IH by done. cbn. by rewrite lookup_insert_ne.
Qed.

(** A bound key stays bound to its class, in projection form. *)
Lemma register_never_rebinds_aux syncObject s key G :
  registry s !! key = Some G →
  registry (register syncObject s).1 !! key = Some G.
Proof.
  intros Hk. destruct (register syncObject s) as [s' c] eqn:Hrun.
  by eapply register_keeps_bound.
Qed.
End Register.

(** C1 (evaluation of the code where it departs from the claim): with
    "mouse" already registered to [MouseInput], registering
    {mouse: MouseInput, touch: TouchInput} returns without an error at the
    redundant entry and leaves "touch", which is absent from the registry,
    unregistered. *)
Theorem register_redundant_entry_drops_later_keys :
  let s := boot {[ "mouse" := MouseInput ]} in
  register [("mouse", MouseInput); ("touch", TouchInput)] s = (s, Normal tt)
  ∧ registry s !! "touch" = None.
Proof.
  split.
  - by apply register_redundant_returns.
  - done.
Qed.

(** C2 (evaluation of the code where it departs from the claim): with
    "mouse" registered to [MouseInput] and "touch" to [TouchInput],
    registering {mouse: MouseInput, touch: ScrollInput} binds "touch" to a
    different class, yet the call returns normally at the redundant
    "mouse" entry; "touch" stays bound to [TouchInput]. *)
Theorem register_conflict_after_redundant_entry_is_silent :
  let s := boot (<[ "touch" := TouchInput ]> {[ "mouse" := MouseInput ]}) in
  registry s !! "touch" = Some TouchInput
  ∧ TouchInput ≠ ScrollInput
  ∧ register [("mouse", MouseInput); ("touch", ScrollInput)] s
    = (s, Normal tt).
Proof.
  split; [done|]. split; [done|].
  by apply register_redundant_returns.
Qed.

(** C9 (evaluation of the code where it departs from the claim): on an
    empty registry, registering {toString: MouseInput} throws the conflict
    error at the first call, although no class was ever registered under
    "toString": the value read from the registry under that key is the
    method every object inherits from [Object.prototype].  Nothing is
    registered by the call. *)
Theorem register_inherited_name_throws :
  registry (boot ∅) !! "toString" = None
  ∧ register [("toString", MouseInput)] (boot ∅)
    = (boot ∅, Throw (Error conflict_message)).
Proof.
  split; [done|].
  by apply (register_builtin_throws _ _ _ NotConstructor).
Qed.

(** ** Objects used as maps: reads after writes *)

Section PropFacts.
Context {A : Type}.
Implicit Types (o : list (string * A)) (key k : string) (v x : A).

Lemma prop_get_Some_elem k x o : prop_get k o = Some x → (k, x) ∈ o.
Proof.
  induction o as [|[k' x'] o IH]; cbn; [done|].
  destruct (decide (k' = k)) as [->|Hne]; intros Hget.
  - inversion Hget; subst. apply list_elem_of_here.
  - apply list_elem_of_further. by apply IH.
Qed.

Lemma prop_get_None k o : prop_get k o = None → k ∉ prop_keys o.
Proof.
  unfold prop_keys. induction o as [|[k' x'] o IH]; cbn.
  - intros _. apply not_elem_of_nil.
  - destruct (decide (k' = k)) as [->|Hne]; [done|].
    intros Hget. apply not_elem_of_cons. split; [congruence|by apply IH].
Qed.

Lemma prop_get_elem k x o :
  NoDup (prop_keys o) → (k, x) ∈ o → prop_get k o = Some x.
Proof.
  unfold prop_keys. induction o as [|[k' x'] o IH]; cbn.
  - intros _ Hin. by apply elem_of_nil in Hin.
  - intros Hnd Hin. apply NoDup_cons in Hnd as [Hk' Hnd].
    apply elem_of_cons in Hin as [Heq|Hin].
    + inversion Heq; subst. by rewrite decide_True.
    + rewrite decide_False; [by apply IH|].
      intros ->. apply Hk'. apply list_elem_of_fmap. by exists (k, x).
Qed.

Lemma prop_get_is_Some k o : is_Some (prop_get k o) ↔ k ∈ prop_keys o.
Proof.
  split.
  - intros [x Hx]. apply list_elem_of_fmap. exists (k, x).
    split; [done|]. by apply prop_get_Some_elem.
  - intros Hin. destruct (prop_get k o) as [x|] eqn:Hget; [by eexists|].
    by apply prop_get_None in Hget.
Qed.

Lemma prop_get_app_None k o1 o2 :
  k ∉ prop_keys o1 → prop_get k (o1 ++ o2) = prop_get k o2.
Proof.
  unfold prop_keys. induction o1 as [|[k' x'] o1 IH]; cbn; [done|].
  intros Hk. apply not_elem_of_cons in Hk as [Hne Hk].
  rewrite decide_False by done. by apply IH.
Qed.

Lemma prop_get_app_ne k key x o1 o2 :
  k ≠ key → prop_get k (o1 ++ (key, x) :: o2) = prop_get k (o1 ++ o2).
Proof.
  intros Hne. induction o1 as [|[k' x'] o1 IH]; cbn.
  - rewrite decide_False; [done|congruence].
  - by rewrite IH.
Qed.

(** Where a write puts the property: it takes the place of the old one,
    or is inserted among the others. *)
Lemma prop_replace_shape key v x o :
  prop_get key o = Some x →
  ∃ o1 o2, o = o1 ++ (key, x) :: o2
           ∧ prop_replace key v o = o1 ++ (key, v) :: o2
           ∧ key ∉ prop_keys o1.
Proof.
  unfold prop_keys. induction o as [|[k' x'] o IH]; cbn; [done|].
  destruct (decide (k' = key)) as [->|Hne]; intros Hget.
  - inversion Hget; subst. exists [], o. split; [done|]. split; [done|].
    apply not_elem_of_nil.
  - destruct (IH Hget) as (o1 & o2 & -> & -> & Hk).
    exists ((k', x') :: o1), o2. split; [done|]. split; [done|].
    cbn. apply not_elem_of_cons. split; [congruence|done].
Qed.

Lemma prop_create_shape key v o :
  ∃ o1 o2, o = o1 ++ o2 ∧ prop_create key v o = o1 ++ (key, v) :: o2.
Proof.
  induction o as [|[k' x'] o IH]; cbn.
  - by exists [], [].
  - destruct (precedes key k').
    + by exists [], ((k', x') :: o).
    + destruct IH as (o1 & o2 & -> & ->). by exists ((k', x') :: o1), o2.
Qed.

Lemma prop_set_shape key v o :
  ∃ o1 o2,
    prop_set key v o = o1 ++ (key, v) :: o2
    ∧ (key ∉ prop_keys o1)
    ∧ ((prop_get key o = None ∧ o = o1 ++ o2)
       ∨ (∃ x, o = o1 ++ (key, x) :: o2)).
Proof.
  unfold prop_set. destruct (prop_get key o) as [x|] eqn:Hget.
  - destruct (prop_replace_shape key v x o Hget) as (o1 & o2 & -> & -> & Hk).
    exists o1, o2. split; [done|]. split; [done|]. right. by exists x.
  - destruct (prop_create_shape key v o) as (o1 & o2 & -> & ->).
    exists o1, o2. split; [done|]. split; [|by left].
    apply prop_get_None in Hget. unfold prop_keys in *.
    rewrite fmap_app in Hget. apply not_elem_of_app in Hget. tauto.
Qed.

Lemma prop_get_set_eq key v o : prop_get key (prop_set key v o) = Some v.
Proof.
  destruct (prop_set_shape key v o) as (o1 & o2 & -> & Hk & _).
  rewrite prop_get_app_None by done. cbn. by rewrite decide_True.
Qed.

Lemma prop_get_set_ne key k v o :
  k ≠ key → prop_get k (prop_set key v o) = prop_get k o.
Proof.
  intros Hne.
  destruct (prop_set_shape key v o) as (o1 & o2 & -> & _ & [[_ ->]|[x ->]]).
  - by apply prop_get_app_ne.
  - by rewrite !prop_get_app_ne.
Qed.

Lemma elem_of_prop_set k x key v o :
  (k, x) ∈ prop_set key v o → (k, x) = (key, v) ∨ (k, x) ∈ o.
Proof.
  destruct (prop_set_shape key v o) as (o1 & o2 & -> & _ & [[_ ->]|[y ->]]);
    rewrite !elem_of_app, !elem_of_cons; tauto.
Qed.

(** A write never removes a key. *)
Lemma prop_keys_set_incl key k v o :
  k ∈ prop_keys o → k ∈ prop_keys (prop_set key v o).
Proof.
  unfold prop_keys.
  destruct (prop_set_shape key v o) as (o1 & o2 & -> & _ & [[_ ->]|[y ->]]);
    rewrite !fmap_app, ?fmap_cons, !elem_of_app, ?elem_of_cons; cbn; tauto.
Qed.

Lemma elem_of_prop_keys_set key k v o :
  k ∈ prop_keys (prop_set key v o) ↔ k = key ∨ k ∈ prop_keys o.
Proof.
  rewrite <- !prop_get_is_Some. destruct (decide (k = key)) as [->|Hne].
  - rewrite prop_get_set_eq. split; [by left|by eexists].
  - rewrite prop_get_set_ne by done. split; [by right|]. by intros [?|?].
Qed.

Lemma prop_keys_set_NoDup key v o :
  NoDup (prop_keys o) → NoDup (prop_keys (prop_set key v o)).
Proof.
  unfold prop_keys.
  destruct (prop_set_shape key v o) as (o1 & o2 & -> & Hk & [[Hn ->]|[y ->]]).
  - apply prop_get_None in Hn. unfold prop_keys in Hn.
    rewrite !fmap_app, fmap_cons. cbn.
    rewrite fmap_app in Hn. apply not_elem_of_app in Hn as [Hn1 Hn2].
    rewrite !NoDup_app, NoDup_cons. intros (H1 & H12 & H2).
    split; [done|]. split; [|by split].
    intros z Hz1 Hz2. apply elem_of_cons in Hz2 as [->|Hz2]; [done|].
    by apply (H12 z).
  - by rewrite !fmap_app, !fmap_cons.
Qed.
End PropFacts.

(** ** The sources among what an object holds *)

Section Sources.
Implicit Types (o : list (string * held)) (key : string) (h : held) (r : ref).

Lemma sources_set key h o :
  ∃ pre mid post,
    omap source_of o.*2 = pre ++ mid ++ post
    ∧ omap source_of (prop_set key h o).*2
      = pre ++ option_list (source_of h) ++ post.
Proof.
  destruct (prop_set_shape key h o) as (o1 & o2 & -> & _ & [[_ ->]|[x ->]]).
  - exists (omap source_of o1.*2), [], (omap source_of o2.*2).
    rewrite !fmap_app, fmap_cons, !omap_app. cbn.
    split; [done|]. by destruct (source_of h).
  - exists (omap source_of o1.*2), (option_list (source_of x)),
      (omap source_of o2.*2).
    rewrite !fmap_app, !fmap_cons, !omap_app. cbn.
    split; [by destruct (source_of x)|by destruct (source_of h)].
Qed.

Lemma elem_of_sources_set key h o r :
  r ∈ omap source_of (prop_set key h o).*2 →
  source_of h = Some r ∨ r ∈ omap source_of o.*2.
Proof.
  destruct (sources_set key h o) as (pre & mid & post & -> & ->).
  rewrite !elem_of_app. intros [?|[Hr|?]]; [tauto| |tauto].
  left. destruct (source_of h) as [r'|]; cbn in Hr.
  - apply list_elem_of_singleton in Hr. by subst.
  - by apply elem_of_nil in Hr.
Qed.

Lemma sources_set_NoDup key h o :
  NoDup (omap source_of o.*2) →
  (∀ r, source_of h = Some r → r ∉ omap source_of o.*2) →
  NoDup (omap source_of (prop_set key h o).*2).
Proof.
  destruct (sources_set key h o) as (pre & mid & post & -> & ->).
  rewrite !NoDup_app. intros (Hpre & Hdisj & Hmid & Hdisj' & Hpost) Hfresh.
  split; [done|]. split.
  - intros z Hz Hz'. apply elem_of_app in Hz' as [Hz'|Hz'].
    + destruct (source_of h) as [r|]; cbn in Hz';
        [|by apply elem_of_nil in Hz'].
      apply list_elem_of_singleton in Hz'. subst z.
      apply (Hfresh r eq_refl). rewrite !elem_of_app. tauto.
    + apply (Hdisj z Hz). rewrite elem_of_app. tauto.
  - split; [|split; [|done]].
    + destruct (source_of h); cbn; [apply NoDup_singleton|apply NoDup_nil_2].
    + intros z Hz Hz'. destruct (source_of h) as [r|]; cbn in Hz;
        [|by apply elem_of_nil in Hz].
      apply list_elem_of_singleton in Hz. subst z.
      apply (Hfresh r eq_refl). rewrite !elem_of_app. tauto.
Qed.

(** A key that holds a source contributes it to the sources. *)
Lemma source_held_attached key r o :
  prop_get key o = Some (Source r) → r ∈ omap source_of o.*2.
Proof.
  intros Hget. apply list_elem_of_omap. exists (Source r).
  split; [|done]. apply list_elem_of_fmap. exists (key, Source r).
  split; [done|]. by apply prop_get_Some_elem.
Qed.

(** When nothing but sources is held, the sources are the values. *)
Lemma sources_only_values o :
  Forall (λ h, is_Some (source_of h)) o.*2 →
  Source <$> omap source_of o.*2 = o.*2.
Proof.
  induction o as [|[k h] o IH]; cbn; [done|]. intros Hall.
  apply Forall_cons in Hall as [[r Hr] Hall]. destruct h; [|done]. cbn.
  by rewrite IH.
Qed.
End Sources.

(** ** Loops *)

Section Loops.
Context {A : Type}.
Implicit Types (l : list A) (body : A → M unit) (s : State).

Lemma for_each_app l1 l2 body s :
  for_each (l1 ++ l2) body s = (for_each l1 body ;;; for_each l2 body) s.
Proof.
  revert s. induction l1 as [|a l1 IH]; intros s; [done|].
  cbn [app for_each]. unfold bind.
  destruct (body a s) as [s1 [[]|e]]; [|done]. rewrite IH. done.
Qed.

Lemma for_each_ext l body body' s :
  (∀ a s', a ∈ l → body a s' = body' a s') →
  for_each l body s = for_each l body' s.
Proof.
  revert s. induction l as [|a l IH]; intros s Hext; [done|].
  cbn [for_each]. unfold bind. rewrite Hext by apply list_elem_of_here.
  destruct (body' a s) as [s1 [[]|e]]; [|done].
  apply IH. intros a' s' Ha'. by apply Hext, list_elem_of_further.
Qed.

(** What every step keeps, the loop keeps, however it ends. *)
Lemma for_each_invariant (P : State → Prop) l body :
  (∀ a s, a ∈ l → P s → P (body a s).1) →
  ∀ s, P s → P (for_each l body s).1.
Proof.
  induction l as [|a l IH]; intros Hbody s HP; [done|].
  cbn [for_each]. unfold bind.
  pose proof (Hbody a s (list_elem_of_here _ _) HP) as HP1.
  destruct (body a s) as [s1 [[]|e]]; cbn in *; [|done].
  apply IH; [|done]. intros a' s' Ha'. by apply Hbody, list_elem_of_further.
Qed.

Lemma for_each_preserves {B} (f : State → B) body l :
  (∀ a s, f (body a s).1 = f s) → ∀ s, f (for_each l body s).1 = f s.
Proof.
  intros Hbody s.
  apply (for_each_invariant (λ s', f s' = f s)); [|done].
  intros a s' _ <-. apply Hbody.
Qed.

End Loops.

(** ** What each method computes *)

Section Runs.
Implicit Types (s : State) (key : string) (v : value) (F : Factory)
  (r : ref).

Lemma subscribeInput_run s key r :
  prop_get key (_syncs (this s)) = Some (Source r) →
  subscribeInput key s
  = (mkState (registry s) (next_ref s)
       (trace s ++ [Subscribe r (_eventInput (this s));
                    Subscribe (_eventOutput (this s)) r])
       (this s),
     Normal tt).
Proof.
  intros Hget. unfold subscribeInput, bind, gets, emit, modify; cbn.
  rewrite Hget; cbn. by rewrite <- app_assoc.
Qed.

Lemma unsubscribeInput_run s key r :
  prop_get key (_syncs (this s)) = Some (Source r) →
  unsubscribeInput key s
  = (mkState (registry s) (next_ref s)
       (trace s ++ [Unsubscribe r (_eventInput (this s));
                    Unsubscribe (_eventOutput (this s)) r])
       (this s),
     Normal tt).
Proof.
  intros Hget. unfold unsubscribeInput, bind, gets, emit, modify; cbn.
  rewrite Hget; cbn. by rewrite <- app_assoc.
Qed.

Lemma subscribeInput_absent s key :
  prop_get key (_syncs (this s)) = None →
  subscribeInput key s = (s, Throw TypeError).
Proof.
  intros Hget. unfold subscribeInput, bind, gets; cbn. by rewrite Hget.
Qed.

Lemma unsubscribeInput_absent s key :
  prop_get key (_syncs (this s)) = None →
  unsubscribeInput key s = (s, Throw TypeError).
Proof.
  intros Hget. unfold unsubscribeInput, bind, gets; cbn. by rewrite Hget.
Qed.

Lemma subscribeInput_plain s key v :
  prop_get key (_syncs (this s)) = Some (Plain v) →
  subscribeInput key s = (s, Throw TypeError).
Proof.
  intros Hget. unfold subscribeInput, bind, gets; cbn. by rewrite Hget.
Qed.

Lemma unsubscribeInput_plain s key v :
  prop_get key (_syncs (this s)) = Some (Plain v) →
  unsubscribeInput key s = (s, Throw TypeError).
Proof.
  intros Hget. unfold unsubscribeInput, bind, gets; cbn. by rewrite Hget.
Qed.

(** The per-key step, whatever [registry[key]] reads. *)
Lemma addSingleInput_run key v s :
  _addSingleInput key v s = add_result key v s.
Proof.
  unfold _addSingleInput, add_result, bind at 1, gets at 1.
  destruct (registry_get (registry s) key) as [[F|[|]]|]; [| | |done].
  - unfold construct, subscribeInput, bind, gets, alloc, emit, modify, ret.
    cbn. rewrite prop_get_set_eq; cbn.
    unfold attach. by rewrite <- !app_assoc.
  - unfold construct, bind at 1, ret at 1. unfold bind at 1, modify at 1.
    by rewrite (subscribeInput_plain _ key v) by apply prop_get_set_eq.
  - done.
Qed.

Lemma registry_get_bound s key F :
  registry s !! key = Some F → registry_get (registry s) key = Some (Class F).
Proof. intros Hreg. unfold registry_get. by rewrite Hreg. Qed.

Lemma registry_get_clear s key :
  reads_builtin s key = false →
  registry_get (registry s) key = Class <$> registry s !! key.
Proof.
  unfold reads_builtin, registry_get.
  by destruct (registry s !! key), (inherited key).
Qed.

Lemma reads_builtin_clear s key :
  inherited key = None → reads_builtin s key = false.
Proof. unfold reads_builtin. intros ->. by destruct (registry s !! key). Qed.

Lemma reads_builtin_bound s key F :
  registry s !! key = Some F → reads_builtin s key = false.
Proof. unfold reads_builtin. by intros ->. Qed.

Lemma addSingleInput_registered s key v F :
  registry s !! key = Some F →
  _addSingleInput key v s = (attach key F v s, Normal tt).
Proof.
  intros Hreg. rewrite addSingleInput_run. unfold add_result.
  by rewrite (registry_get_bound s key F).
Qed.

Lemma addSingleInput_unregistered s key v :
  registry s !! key = None → inherited key = None →
  _addSingleInput key v s = (s, Normal tt).
Proof.
  intros Hreg Hb. rewrite addSingleInput_run. unfold add_result, registry_get.
  by rewrite Hreg, Hb.
Qed.

Lemma addSingleInput_step optf s key :
  reads_builtin s key = false →
  _addSingleInput key (optf key) s = (add_step optf s key, Normal tt).
Proof.
  intros Hclear. rewrite addSingleInput_run. unfold add_result, add_step.
  rewrite registry_get_clear by done. by destruct (registry s !! key).
Qed.

(** A step that returns normally read no built-in. *)
Lemma addSingleInput_normal key v s :
  (_addSingleInput key v s).2 = Normal tt → reads_builtin s key = false.
Proof.
  rewrite addSingleInput_run. unfold add_result, registry_get, reads_builtin.
  destruct (registry s !! key); [done|].
  by destruct (inherited key) as [[|]|].
Qed.

Lemma addSingleInput_registry key v s :
  registry (_addSingleInput key v s).1 = registry s.
Proof.
  rewrite addSingleInput_run. unfold add_result.
  by destruct (registry_get (registry s) key) as [[F|[|]]|].
Qed.

Lemma addInput_loop syncs :
  addInput syncs
  = for_each (keys_of syncs)
      (λ key, _addSingleInput key (option_for syncs key)).
Proof. by destruct syncs. Qed.
End Runs.

(** ** Reading the trace *)

Section TraceFacts.
Implicit Types (t added : list call) (r x y : ref).

Lemma setOptions_calls_app r t1 t2 :
  setOptions_calls r (t1 ++ t2)
  = setOptions_calls r t1 ++ setOptions_calls r t2.
Proof.
  induction t1 as [|c t1 IH]; [done|].
  destruct c; cbn; try done. case_decide; cbn; by rewrite IH.
Qed.



Lemma setOptions_calls_forward r v (l : list ref) :
  NoDup l → r ∈ l →
  setOptions_calls r (map (λ r', SetOptions r' v) l) = [v].
Proof.
  induction 1 as [|r' l Hr' Hnd IH]; intros Hin.
  - by apply elem_of_nil in Hin.
  - cbn. apply elem_of_cons in Hin as [->|Hin].
    + rewrite decide_True by done. f_equal.
      clear IH Hnd. induction l as [|r'' l IHl]; [done|].
      apply not_elem_of_cons in Hr' as [Hne Hr']. cbn.
      rewrite decide_False by done. by apply IHl.
    + rewrite decide_False; [by apply IH|]. by intros ->.
Qed.


Lemma wiring_snoc t c : wiring (t ++ [c]) = wire (wiring t) c.
Proof. unfold wiring. by rewrite foldl_app. Qed.

Lemma wiring_app t added :
  wiring (t ++ added) = foldl wire (wiring t) added.
Proof. unfold wiring. by rewrite foldl_app. Qed.

Lemma wire_attach_mono added : ∀ (w : gset (ref * ref)),
  Forall is_attach_call added → w ⊆ foldl wire w added.
Proof.
  induction added as [|c added IH]; intros w Hall; [done|].
  apply Forall_cons in Hall as [Hc Hall]. cbn [foldl].
  etrans; [|by apply IH]. destruct c; cbn in *; set_solver.
Qed.

Lemma delivers_attach_mono t added x y :
  Forall is_attach_call added →
  delivers t x y = true → delivers (t ++ added) x y = true.
Proof.
  unfold delivers. intros Hall Hd.
  apply bool_decide_eq_true in Hd. apply bool_decide_eq_true.
  rewrite wiring_app. by apply (wire_attach_mono added).
Qed.
End TraceFacts.

(** ** The add loop *)

Section AddLoop.
Variable optf : string → value.
Implicit Types (s : State) (key k : string) (keys : list string).

Lemma add_step_cases s key :
  (registry s !! key = None ∧ add_step optf s key = s)
  ∨ (∃ F, registry s !! key = Some F
          ∧ add_step optf s key = attach key F (optf key) s).
Proof.
  unfold add_step. destruct (registry s !! key) as [F|]; [right|left]; eauto.
Qed.

Lemma add_step_frame s key :
  registry (add_step optf s key) = registry s
  ∧ _eventInput (this (add_step optf s key)) = _eventInput (this s)
  ∧ _eventOutput (this (add_step optf s key)) = _eventOutput (this s)
  ∧ next_ref s ≤ next_ref (add_step optf s key).
Proof.
  destruct (add_step_cases s key) as [[_ ->]|(F & _ & ->)]; cbn; auto with lia.
Qed.


(** The calls one step appends. *)
Lemma add_step_trace s key :
  ∃ added, trace (add_step optf s key) = trace s ++ added
           ∧ Forall is_attach_call added.
Proof.
  destruct (add_step_cases s key) as [[_ ->]|(F & _ & ->)].
  - exists []. by rewrite app_nil_r.
  - eexists. split; [reflexivity|]. by repeat constructor.
Qed.

Lemma add_loop_trace keys : ∀ s,
  ∃ added, trace (foldl (add_step optf) s keys) = trace s ++ added
           ∧ Forall is_attach_call added.
Proof.
  induction keys as [|key keys IH]; intros s; cbn [foldl].
  - exists []. by rewrite app_nil_r.
  - destruct (IH (add_step optf s key)) as (a2 & -> & Ha2).
    destruct (add_step_trace s key) as (a1 & -> & Ha1).
    exists (a1 ++ a2). rewrite app_assoc. split; [done|].
    by apply Forall_app.
Qed.






(** Every key held before is still held. *)
Lemma add_loop_keys_incl keys k : ∀ s,
  k ∈ prop_keys (_syncs (this s)) →
  k ∈ prop_keys (_syncs (this (foldl (add_step optf) s keys))).
Proof.
  induction keys as [|key keys IH]; intros s Hk; cbn [foldl]; [done|].
  apply IH.
  destruct (add_step_cases s key) as [[_ ->]|(F & _ & ->)]; [done|].
  cbn. by apply prop_keys_set_incl.
Qed.

(** Whatever the loop stored is a source it built and subscribed both
    ways; nothing it found was replaced by anything else. *)
Lemma add_loop_origin keys : ∀ s added k h,
  trace (foldl (add_step optf) s keys) = trace s ++ added →
  (k, h) ∈ _syncs (this (foldl (add_step optf) s keys)) →
  (k, h) ∈ _syncs (this s)
  ∨ (∃ F r, h = Source r ∧ registry s !! k = Some F
            ∧ New r F (optf k) ∈ added ∧ next_ref s ≤ r
            ∧ Subscribe r (_eventInput (this s)) ∈ added
            ∧ Subscribe (_eventOutput (this s)) r ∈ added).
Proof.
  induction keys as [|key keys IH]; intros s added k h Ht Hin;
    cbn [foldl] in *; [by left|].
  destruct (add_loop_trace keys (add_step optf s key)) as (a2 & Ha2 & _).
  destruct (add_step_frame s key) as (Hreg & Hei & Heo & Hle).
  destruct (add_step_trace s key) as (a1 & Ha1 & _).
  assert (added = a1 ++ a2) as ->.
  { apply (app_inv_head (trace s)). by rewrite <- Ht, Ha2, Ha1, <- app_assoc. }
  destruct (IH _ a2 k h Ha2 Hin)
    as [Hin1|(F & r & -> & HF & Hnew & Hr & Hs1 & Hs2)].
  - destruct (add_step_cases s key) as [[_ Hs]|(G & HG & Hs)].
    + left. by rewrite Hs in Hin1.
    + rewrite Hs in Hin1, Ha1. cbn in Hin1, Ha1.
      apply app_inv_head in Ha1 as <-.
      apply elem_of_prop_set in Hin1 as [Heq|Hin1]; [|by left].
      inversion Heq; subst. right. exists G, (next_ref s).
      split; [done|]. split; [done|].
      split; [apply elem_of_app; left; apply list_elem_of_here|].
      split; [done|].
      split; apply elem_of_app; left; set_solver.
  - right. exists F, r. rewrite <- Hreg. split; [done|]. split; [done|].
    rewrite Hei in Hs1. rewrite Heo in Hs2.
    split; [apply elem_of_app; by right|]. split; [lia|].
    split; apply elem_of_app; by right.
Qed.

(** The loop only looks at the options of the keys it visits. *)
Lemma add_loop_clear keys : ∀ s,
  Forall (λ k, reads_builtin s k = false) keys →
  for_each keys (λ key, _addSingleInput key (optf key)) s
  = (foldl (add_step optf) s keys, Normal tt).
Proof.
  induction keys as [|key keys IH]; intros s Hclear; [done|].
  apply Forall_cons in Hclear as [Hkey Hclear].
  cbn [for_each foldl]. unfold bind at 1.
  rewrite addSingleInput_step by done. apply IH.
  eapply Forall_impl; [exact Hclear|]. intros k Hk. cbn in *.
  unfold reads_builtin in *.
  by destruct (add_step_frame s key) as (-> & _).
Qed.

(** A loop that returned normally read no built-in. *)
Lemma add_loop_normal keys : ∀ s,
  (for_each keys (λ key, _addSingleInput key (optf key)) s).2 = Normal tt →
  Forall (λ k, reads_builtin s k = false) keys.
Proof.
  induction keys as [|key keys IH]; intros s Hok; [done|].
  cbn [for_each] in Hok. unfold bind in Hok.
  destruct (_addSingleInput key (optf key) s) as [s1 c] eqn:Hstep.
  pose proof (addSingleInput_normal key (optf key) s) as Hkey.
  pose proof (addSingleInput_registry key (optf key) s) as Hreg.
  rewrite Hstep in Hkey, Hreg. cbn in Hkey, Hreg.
  destruct c as [[]|e]; [|done].
  constructor; [by apply Hkey|].
  eapply Forall_impl; [exact (IH s1 Hok)|]. intros k Hk. cbn in *.
  unfold reads_builtin in *. by rewrite <- Hreg.
Qed.
End AddLoop.

Lemma add_loop_ext optf optf' keys : ∀ s,
  (∀ k, k ∈ keys → optf k = optf' k) →
  foldl (add_step optf) s keys = foldl (add_step optf') s keys.
Proof.
  induction keys as [|key keys IH]; intros s Hext; cbn [foldl]; [done|].
  assert (add_step optf s key = add_step optf' s key) as ->.
  { unfold add_step. by rewrite (Hext key) by apply list_elem_of_here. }
  apply IH. intros k Hk. by apply Hext, list_elem_of_further.
Qed.

(** addInput when no key reads a built-in, and only then normally. *)
Lemma addInput_run syncs s :
  Forall (λ k, reads_builtin s k = false) (keys_of syncs) →
  addInput syncs s
  = (foldl (add_step (option_for syncs)) s (keys_of syncs), Normal tt).
Proof. intros Hclear. rewrite addInput_loop. by apply add_loop_clear. Qed.

Lemma addInput_normal syncs s :
  (addInput syncs s).2 = Normal tt →
  Forall (λ k, reads_builtin s k = false) (keys_of syncs).
Proof. rewrite addInput_loop. apply add_loop_normal. Qed.

Lemma clear_names_clear s keys :
  Forall (λ k, inherited k = None) keys →
  Forall (λ k, reads_builtin s k = false) keys.
Proof.
  intros Hall. eapply Forall_impl; [exact Hall|]. intros k Hk.
  by apply reads_builtin_clear.
Qed.

(** ** Well-formedness and what is held *)

Section Invariant.
Implicit Types (s : State) (key k : string) (keys : list string)
  (v : value) (r : ref).

Lemma wf_attach s key F v : wf s → wf (attach key F v s).
Proof.
  intros (Hk & Hv & Hlt & Hei & Heo & Ht).
  assert (next_ref s ∉ attached s) as Hfresh.
  { intros Hin. apply (proj1 (Forall_forall _ _) Hlt) in Hin. lia. }
  unfold wf, attached in *. cbn.
  split; [by apply prop_keys_set_NoDup|].
  split.
  { apply sources_set_NoDup; [done|]. intros r Hr. by inversion Hr; subst. }
  split.
  { apply Forall_forall. intros r Hr.
    apply elem_of_sources_set in Hr as [Hr|Hr]; [inversion Hr; lia|].
    apply (proj1 (Forall_forall _ _) Hlt) in Hr. lia. }
  split; [lia|]. split; [lia|].
  apply Forall_app. split.
  - eapply Forall_impl; [exact Ht|]. intros c Hc. cbn in Hc.
    eapply Forall_impl; [exact Hc|]. cbn. lia.
  - repeat constructor; lia.
Qed.

(** Storing a plain object keeps the state well-formed: it is no
    source. *)
Lemma wf_store_plain s key v :
  wf s → wf (set_this (set_syncs (prop_set key (Plain v))) s).
Proof.
  intros (Hk & Hv & Hlt & Hei & Heo & Ht). unfold wf, attached in *. cbn.
  split; [by apply prop_keys_set_NoDup|].
  split; [by apply sources_set_NoDup|].
  split; [|done].
  apply Forall_forall. intros r Hr.
  apply elem_of_sources_set in Hr as [Hr|Hr]; [done|].
  by apply (proj1 (Forall_forall _ _) Hlt).
Qed.

Lemma wf_add_result s key v : wf s → wf (add_result key v s).1.
Proof.
  intros Hwf. unfold add_result.
  destruct (registry_get (registry s) key) as [[F|[|]]|]; cbn;
    [by apply wf_attach|by apply wf_store_plain|done|done].
Qed.

Lemma wf_add_step optf s key : wf s → wf (add_step optf s key).
Proof.
  intros Hwf. destruct (add_step_cases optf s key) as [[_ ->]|(F & _ & ->)];
    [done|by apply wf_attach].
Qed.

Lemma wf_add_loop optf keys : ∀ s, wf s → wf (foldl (add_step optf) s keys).
Proof.
  induction keys as [|key keys IH]; intros s Hwf; cbn [foldl]; [done|].
  by apply IH, wf_add_step.
Qed.

Lemma keys_add_loop_NoDup optf keys : ∀ s,
  NoDup (prop_keys (_syncs (this s))) →
  NoDup (prop_keys (_syncs (this (foldl (add_step optf) s keys)))).
Proof.
  induction keys as [|key keys IH]; intros s Hnd; cbn [foldl]; [done|].
  apply IH. destruct (add_step_cases optf s key) as [[_ ->]|(F & _ & ->)];
    [done|]. cbn. by apply prop_keys_set_NoDup.
Qed.

Lemma only_sources_attach s key F v :
  only_sources s → only_sources (attach key F v s).
Proof.
  unfold only_sources. cbn. intros Hall. apply Forall_forall. intros h Hh.
  apply list_elem_of_fmap in Hh as [[k h'] [-> Hin]].
  apply elem_of_prop_set in Hin as [Heq|Hin].
  - inversion Heq; subst. by eexists.
  - apply (proj1 (Forall_forall _ _) Hall).
    apply list_elem_of_fmap. by exists (k, h').
Qed.

Lemma only_sources_add_loop optf keys : ∀ s,
  only_sources s → only_sources (foldl (add_step optf) s keys).
Proof.
  induction keys as [|key keys IH]; intros s Hs; cbn [foldl]; [done|].
  apply IH. destruct (add_step_cases optf s key) as [[_ ->]|(F & _ & ->)];
    [done|by apply only_sources_attach].
Qed.

(** A source attached by the loop is either one that was attached before
    or one the loop allocated. *)
Lemma attached_add_loop optf keys s r :
  r ∈ attached (foldl (add_step optf) s keys) →
  r ∈ attached s ∨ next_ref s ≤ r.
Proof.
  unfold attached. intros Hin.
  apply list_elem_of_omap in Hin as (h & Hin & Hh).
  apply list_elem_of_fmap in Hin as [[k h'] [-> Hin]].
  destruct (add_loop_trace optf keys s) as (added & Ht & _).
  destruct (add_loop_origin optf keys s added k h' Ht Hin)
    as [Hin'|(F & r' & -> & _ & _ & ? & _)].
  - left. apply list_elem_of_omap. exists h'. split; [|done].
    apply list_elem_of_fmap. by exists (k, h').
  - right. cbn in Hh. by inversion Hh; subst.
Qed.

Lemma attached_add_result s key v r :
  r ∈ attached (add_result key v s).1 → r ∈ attached s ∨ next_ref s ≤ r.
Proof.
  unfold add_result, attached.
  destruct (registry_get (registry s) key) as [[F|[|]]|]; cbn;
    [| |by left|by left]; intros Hr;
    apply elem_of_sources_set in Hr as [Hr|Hr]; cbn in Hr;
    (try by left); inversion Hr; subst; by right.
Qed.

Lemma add_result_frame s key v :
  registry (add_result key v s).1 = registry s
  ∧ _eventInput (this (add_result key v s).1) = _eventInput (this s)
  ∧ _eventOutput (this (add_result key v s).1) = _eventOutput (this s)
  ∧ next_ref s ≤ next_ref (add_result key v s).1.
Proof.
  unfold add_result.
  destruct (registry_get (registry s) key) as [[F|[|]]|]; cbn; auto with lia.
Qed.

(** The calls one step appends, whatever its outcome. *)
Lemma add_result_trace s key v :
  ∃ added, trace (add_result key v s).1 = trace s ++ added
           ∧ Forall is_attach_call added.
Proof.
  unfold add_result.
  destruct (registry_get (registry s) key) as [[F|[|]]|]; cbn;
    try (exists []; by rewrite app_nil_r).
  eexists. split; [reflexivity|]. by repeat constructor.
Qed.

Lemma add_result_keys_incl s key v k :
  k ∈ prop_keys (_syncs (this s)) →
  k ∈ prop_keys (_syncs (this (add_result key v s).1)).
Proof.
  unfold add_result.
  destruct (registry_get (registry s) key) as [[F|[|]]|]; cbn;
    try done; apply prop_keys_set_incl.
Qed.

(** A key that is neither registered nor inherited keeps what it holds
    through any step. *)
Lemma add_result_other s key v k :
  k ≠ key ∨ (registry s !! k = None ∧ inherited k = None) →
  prop_get k (_syncs (this (add_result key v s).1))
  = prop_get k (_syncs (this s)).
Proof.
  intros Hk. unfold add_result.
  destruct (registry_get (registry s) key) as [[F|[|]]|] eqn:Hget; cbn;
    try done; apply prop_get_set_ne;
    (destruct Hk as [?|[Hk Hb]]; [done|]); intros ->;
    unfold registry_get in Hget; by rewrite Hk, Hb in Hget.
Qed.
End Invariant.

(** A constructor call on a state whose references were all handed out by
    the allocator starts from a well-formed state. *)
Lemma wf_initialised (s : State) :
  Forall (λ c, Forall (λ r, r < next_ref s) (call_refs c)) (trace s) →
  wf (initialised s).
Proof.
  intros Ht. unfold wf, attached. cbn.
  split; [apply NoDup_nil_2|]. split; [apply NoDup_nil_2|].
  split; [apply Forall_nil_2|]. split; [lia|]. split; [lia|].
  apply Forall_app. split.
  - eapply Forall_impl; [exact Ht|]. intros c Hc. cbn in Hc.
    eapply Forall_impl; [exact Hc|]. cbn. lia.
  - repeat constructor; lia.
Qed.

(** ** setOptions *)

Section SetOptions.
Implicit Types (s : State) (v : value).

Lemma setOptions_loop v (l : list (string * held)) : ∀ s,
  (∀ k h, (k, h) ∈ l → prop_get k (_syncs (this s)) = Some h) →
  Forall (λ h, is_Some (source_of h)) l.*2 →
  for_each l.*1 (λ key,
    sync <- gets (λ s, prop_get key (_syncs (this s))) ;;
    r <- receiver sync ;;
    emit (SetOptions r v)) s
  = (mkState (registry s) (next_ref s)
       (trace s ++ map (λ r, SetOptions r v) (omap source_of l.*2)) (this s),
     Normal tt).
Proof.
  induction l as [|[k h] l IH]; intros s Hget Hall; cbn.
  - rewrite app_nil_r. by destruct s.
  - cbn in Hall. apply Forall_cons in Hall as [[r Hr] Hall].
    destruct h as [r'|]; [|done]. cbn in Hr. inversion Hr; subst r'. cbn.
    unfold bind at 1. unfold bind at 1. unfold gets at 1.
    rewrite (Hget k (Source r)) by apply list_elem_of_here.
    cbn. unfold bind at 1. cbn. unfold emit, modify. cbn.
    rewrite IH; cbn.
    + by rewrite <- app_assoc.
    + intros k' h' Hin. apply Hget. by apply list_elem_of_further.
    + done.
Qed.

Lemma setOptions_run s v :
  NoDup (prop_keys (_syncs (this s))) → only_sources s →
  setOptions v s
  = (mkState (registry s) (next_ref s)
       (trace s ++ map (λ r, SetOptions r v) (attached s)) (this s),
     Normal tt).
Proof.
  intros Hnd Hsrc. unfold setOptions, bind at 1. unfold gets at 1.
  unfold prop_keys. rewrite setOptions_loop; [done| |done].
  intros k h Hin. by apply prop_get_elem.
Qed.


Lemma setOptions_unfold s v :
  setOptions v s = for_each (prop_keys (_syncs (this s))) (options_turn v) s.
Proof. done. Qed.

(** One turn of the loop of setOptions. *)
Lemma setOptions_turn s v key :
  (∃ r, prop_get key (_syncs (this s)) = Some (Source r)
        ∧ options_turn v key s
          = (mkState (registry s) (next_ref s)
               (trace s ++ [SetOptions r v]) (this s), Normal tt))
  ∨ ((∀ r, prop_get key (_syncs (this s)) ≠ Some (Source r))
     ∧ options_turn v key s = (s, Throw TypeError)).
Proof.
  unfold options_turn, bind, gets. cbn.
  destruct (prop_get key (_syncs (this s))) as [[r|from]|]; cbn;
    [left|by right|by right].
  by exists r.
Qed.

Lemma setOptions_frame s v :
  registry (setOptions v s).1 = registry s
  ∧ this (setOptions v s).1 = this s
  ∧ next_ref (setOptions v s).1 = next_ref s.
Proof.
  rewrite setOptions_unfold. repeat split.
  - apply (for_each_preserves registry). clear s. intros key s.
    by destruct (setOptions_turn s v key) as [(r & _ & ->)|[_ ->]].
  - apply (for_each_preserves this). clear s. intros key s.
    by destruct (setOptions_turn s v key) as [(r & _ & ->)|[_ ->]].
  - apply (for_each_preserves next_ref). clear s. intros key s.
    by destruct (setOptions_turn s v key) as [(r & _ & ->)|[_ ->]].
Qed.

Lemma wf_emit_one s (c : ref → call) r :
  call_refs (c r) = [r] → wf s → r < next_ref s →
  wf (mkState (registry s) (next_ref s) (trace s ++ [c r]) (this s)).
Proof.
  intros Hc (Hk & Hv & Hlt & Hei & Heo & Ht) Hr. unfold wf, attached in *.
  cbn. repeat (split; [done|]). apply Forall_app. split; [done|].
  constructor; [|done]. rewrite Hc. by repeat constructor.
Qed.

Lemma wf_attached_lt s key r :
  wf s → prop_get key (_syncs (this s)) = Some (Source r) → r < next_ref s.
Proof.
  intros (_ & _ & Hlt & _) Hget.
  apply (proj1 (Forall_forall _ _) Hlt r).
  unfold attached. by eapply source_held_attached.
Qed.

(** setOptions keeps well-formedness, however it ends. *)
Lemma wf_setOptions_any s v : wf s → wf (setOptions v s).1.
Proof.
  intros Hwf. rewrite setOptions_unfold.
  apply (for_each_invariant wf); [|done]. intros key s' _ Hwf'.
  destruct (setOptions_turn s' v key) as [(r & Hget & ->)|[_ ->]]; [|done].
  cbn. apply (wf_emit_one s' (λ r, SetOptions r v)); [done|done|].
  by eapply wf_attached_lt.
Qed.
End SetOptions.

(** ** addInput, however it ends *)

Section AnyOutcome.
Implicit Types (s : State) (key k : string) (keys : list string)
  (v : value) (r : ref) (syncs : Syncs).

Lemma addInput_frame syncs s :
  registry (addInput syncs s).1 = registry s
  ∧ _eventInput (this (addInput syncs s).1) = _eventInput (this s)
  ∧ _eventOutput (this (addInput syncs s).1) = _eventOutput (this s)
  ∧ next_ref s ≤ next_ref (addInput syncs s).1.
Proof.
  rewrite addInput_loop.
  apply (for_each_invariant
           (λ s', registry s' = registry s
                  ∧ _eventInput (this s') = _eventInput (this s)
                  ∧ _eventOutput (this s') = _eventOutput (this s)
                  ∧ next_ref s ≤ next_ref s')); [|auto].
  intros key s' _ (<- & <- & <- & Hle). rewrite addSingleInput_run.
  destruct (add_result_frame s' key (option_for syncs key))
    as (-> & -> & -> & Hle').
  auto with lia.
Qed.

(** The calls addInput makes are constructions and subscriptions, and
    every source it leaves under a key was there before or was subscribed
    both ways by the call. *)
Lemma addInput_sources syncs s :
  ∃ added,
    trace (addInput syncs s).1 = trace s ++ added
    ∧ Forall is_attach_call added
    ∧ ∀ k r, (k, Source r) ∈ _syncs (this (addInput syncs s).1) →
        (k, Source r) ∈ _syncs (this s)
        ∨ (Subscribe r (_eventInput (this s)) ∈ added
           ∧ Subscribe (_eventOutput (this s)) r ∈ added).
Proof.
  rewrite addInput_loop.
  apply (for_each_invariant
           (λ s', _eventInput (this s') = _eventInput (this s)
                  ∧ _eventOutput (this s') = _eventOutput (this s)
                  ∧ ∃ added,
                      trace s' = trace s ++ added
                      ∧ Forall is_attach_call added
                      ∧ ∀ k r, (k, Source r) ∈ _syncs (this s') →
                          (k, Source r) ∈ _syncs (this s)
                          ∨ (Subscribe r (_eventInput (this s)) ∈ added
                             ∧ Subscribe (_eventOutput (this s)) r ∈ added))
           (keys_of syncs)
           (λ key, _addSingleInput key (option_for syncs key))).
  - intros key s' _ (Hei & Heo & added & Ht & Hcalls & Hsrc).
    rewrite addSingleInput_run. unfold add_result.
    destruct (registry_get (registry s') key) as [[F|[|]]|]; cbn [fst].
    + cbn. split; [done|]. split; [done|].
      eexists (added ++ _). rewrite Ht, <- app_assoc.
      split; [reflexivity|].
      split; [apply Forall_app; split; [done|by repeat constructor]|].
      intros k r Hin. apply elem_of_prop_set in Hin as [Heq|Hin].
      * inversion Heq; subst. right. rewrite Hei, Heo.
        split; apply elem_of_app; right; set_solver.
      * destruct (Hsrc k r Hin) as [?|[? ?]]; [by left|right].
        split; apply elem_of_app; by left.
    + cbn. split; [done|]. split; [done|]. exists added.
      split; [done|]. split; [done|].
      intros k r Hin. apply elem_of_prop_set in Hin as [Heq|Hin]; [done|].
      by apply Hsrc.
    + split; [done|]. split; [done|]. by exists added.
    + split; [done|]. split; [done|]. by exists added.
  - split; [done|]. split; [done|]. exists []. rewrite app_nil_r.
    split; [done|]. split; [done|]. by left.
Qed.

Lemma addInput_keys_incl syncs s k :
  k ∈ prop_keys (_syncs (this s)) →
  k ∈ prop_keys (_syncs (this (addInput syncs s).1)).
Proof.
  intros Hk. rewrite addInput_loop.
  apply (for_each_invariant (λ s', k ∈ prop_keys (_syncs (this s'))));
    [|done].
  intros key s' _ Hk'. rewrite addSingleInput_run.
  by apply add_result_keys_incl.
Qed.

Lemma wf_addInput_any syncs s : wf s → wf (addInput syncs s).1.
Proof.
  intros Hwf. rewrite addInput_loop.
  apply (for_each_invariant wf); [|done].
  intros key s' _ Hwf'. rewrite addSingleInput_run. by apply wf_add_result.
Qed.

(** A key that is neither registered nor inherited keeps what it holds. *)
Lemma addInput_skipped syncs s k :
  registry s !! k = None → inherited k = None →
  prop_get k (_syncs (this (addInput syncs s).1))
  = prop_get k (_syncs (this s)).
Proof.
  intros Hreg Hb. rewrite addInput_loop.
  apply (for_each_invariant
           (λ s', registry s' = registry s
                  ∧ prop_get k (_syncs (this s'))
                    = prop_get k (_syncs (this s)))); [|done].
  intros key s' _ [Hr <-]. rewrite addSingleInput_run.
  destruct (add_result_frame s' key (option_for syncs key)) as (-> & _).
  split; [done|]. apply add_result_other. right. by rewrite Hr.
Qed.

(** The sources addInput leaves were attached before or allocated by
    it. *)
Lemma attached_addInput syncs s r :
  r ∈ attached (addInput syncs s).1 → r ∈ attached s ∨ next_ref s ≤ r.
Proof.
  rewrite addInput_loop.
  apply (for_each_invariant
           (λ s', next_ref s ≤ next_ref s'
                  ∧ (r ∈ attached s' → r ∈ attached s ∨ next_ref s ≤ r))
           (keys_of syncs)
           (λ key, _addSingleInput key (option_for syncs key))); [|auto].
  intros key s' _ [Hle Hr]. rewrite addSingleInput_run.
  destruct (add_result_frame s' key (option_for syncs key))
    as (_ & _ & _ & Hle').
  split; [lia|]. intros Hin.
  apply attached_add_result in Hin as [Hin|Hin]; [by apply Hr|right; lia].
Qed.

(** addInput either returns normally or throws a TypeError. *)
Lemma addInput_outcome syncs s :
  (addInput syncs s).2 = Normal tt ∨ (addInput syncs s).2 = Throw TypeError.
Proof.
  rewrite addInput_loop. generalize (keys_of syncs). intros keys. revert s.
  induction keys as [|key keys IH]; intros s; [by left|].
  cbn [for_each]. unfold bind. rewrite addSingleInput_run.
  unfold add_result.
  destruct (registry_get (registry s) key) as [[F|[|]]|]; cbn;
    [apply IH|by right|by right|apply IH].
Qed.
End AnyOutcome.

(** ** Well-formedness is an invariant of every operation *)

Section Invariance.
Implicit Types (s : State) (key : string) (v : value).





(** The constructor opens with the five assignments and calls, then runs
    the two conditional calls. *)
Lemma new_GenericInput_unfold syncs v s :
  new_GenericInput syncs v s
  = (add_part syncs ;;; options_part v) (initialised s).
Proof.
  unfold new_GenericInput, bind, alloc, emit, modify. cbn.
  rewrite <- !app_assoc. cbn. by change (set_this _ _) with (initialised s).
Qed.

Lemma add_part_state syncs s :
  (add_part syncs s).1
  = if syncs_truthy syncs then (addInput syncs s).1 else s.
Proof. unfold add_part. by destruct (syncs_truthy syncs). Qed.

Lemma options_part_state v s :
  (options_part v s).1 = if truthy v then (setOptions v s).1 else s.
Proof. unfold options_part. by destruct (truthy v). Qed.

(** The state the constructor leaves: that of the add part when it throws
    or when no options are given, that of setOptions otherwise. *)
Lemma new_GenericInput_state syncs v s :
  (new_GenericInput syncs v s).1 = (add_part syncs (initialised s)).1
  ∨ (add_part syncs (initialised s)).2 = Normal tt
    ∧ (new_GenericInput syncs v s).1
      = (options_part v (add_part syncs (initialised s)).1).1.
Proof.
  rewrite new_GenericInput_unfold. unfold bind.
  destruct (add_part syncs (initialised s)) as [s1 [[]|e]]; [right|left];
    done.
Qed.

Lemma wf_add_part syncs s : wf s → wf (add_part syncs s).1.
Proof.
  intros Hwf. rewrite add_part_state.
  destruct (syncs_truthy syncs); [by apply wf_addInput_any|done].
Qed.

Lemma wf_options_part v s : wf s → wf (options_part v s).1.
Proof.
  intros Hwf. rewrite options_part_state.
  destruct (truthy v); [by apply wf_setOptions_any|done].
Qed.

Lemma wf_new_GenericInput s syncs v :
  Forall (λ c, Forall (λ r, r < next_ref s) (call_refs c)) (trace s) →
  wf (new_GenericInput syncs v s).1.
Proof.
  intros Ht. apply wf_initialised in Ht.
  destruct (new_GenericInput_state syncs v s) as [->|[_ ->]].
  - by apply wf_add_part.
  - by apply wf_options_part, wf_add_part.
Qed.

(** The closed form of the constructor when no key reads a built-in. *)
Lemma new_GenericInput_run syncs v s :
  Forall (λ k, reads_builtin s k = false) (keys_of syncs) →
  new_GenericInput syncs v s = (constructed syncs v s, Normal tt).
Proof.
  intros Hclear. rewrite new_GenericInput_unfold. unfold bind, constructed.
  assert (add_part syncs (initialised s)
          = (if syncs_truthy syncs
             then foldl (add_step (option_for syncs)) (initialised s)
                    (keys_of syncs)
             else initialised s, Normal tt)) as ->.
  { unfold add_part. destruct (syncs_truthy syncs); [|done].
    by apply addInput_run. }
  unfold options_part. destruct (truthy v); [|done]. apply setOptions_run.
  - destruct (syncs_truthy syncs); [|cbn; apply NoDup_nil_2].
    apply keys_add_loop_NoDup. cbn. apply NoDup_nil_2.
  - destruct (syncs_truthy syncs); [|by apply Forall_nil_2].
    apply only_sources_add_loop. by apply Forall_nil_2.
Qed.
End Invariance.

(** * The aggregator *)

(** C6: for a key registered to F, the per-key add step invokes F with the
    given options to obtain a new instance, stores it under the key (the
    other keys keep what they hold), and subscribes it: afterwards the new
    instance's events reach the input sink and the output sink's events
    reach the instance.  Only the construction and the two subscriptions
    are performed, so whatever was delivered before, in particular to and
    from an instance previously stored under the key, is still
    delivered. *)
Theorem addSingleInput_constructs_stores_subscribes
    (s : State) (key : string) (options : value) (F : Factory) :
  registry s !! key = Some F →
  let r := next_ref s in
  let ei := _eventInput (this s) in
  let eo := _eventOutput (this s) in
  ∃ s',
    _addSingleInput key options s = (s', Normal tt)
    ∧ trace s' = trace s ++ [New r F options; Subscribe r ei; Subscribe eo r]
    ∧ next_ref s' = S r
    ∧ prop_get key (_syncs (this s')) = Some (Source r)
    ∧ (∀ k, k ≠ key →
         prop_get k (_syncs (this s')) = prop_get k (_syncs (this s)))
    ∧ delivers (trace s') r ei = true
    ∧ delivers (trace s') eo r = true
    ∧ (∀ x y, delivers (trace s) x y = true → delivers (trace s') x y = true).
Proof.
  intros HF r ei eo. exists (attach key F options s).
  split; [by apply addSingleInput_registered|]. cbn.
  split; [done|]. split; [done|]. split; [apply prop_get_set_eq|].
  split; [intros k Hk; by apply prop_get_set_ne|].
  unfold delivers. rewrite wiring_app. cbn.
  split; [apply bool_decide_eq_true; set_solver|].
  split; [apply bool_decide_eq_true; set_solver|].
  intros x y Hd. apply bool_decide_eq_true in Hd.
  apply bool_decide_eq_true. set_solver.
Qed.

Lemma addSingleInput_constructs_stores_subscribes_witness :
  ∃ s',
    _addSingleInput "mouse" propagate studio = (s', Normal tt)
    ∧ trace s' = trace studio
                 ++ [New (next_ref studio) MouseInput propagate;
                     Subscribe (next_ref studio) (_eventInput (this studio));
                     Subscribe (_eventOutput (this studio)) (next_ref studio)]
    ∧ next_ref s' = S (next_ref studio)
    ∧ prop_get "mouse" (_syncs (this s')) = Some (Source (next_ref studio))
    ∧ (∀ k, k ≠ "mouse" →
         prop_get k (_syncs (this s')) = prop_get k (_syncs (this studio)))
    ∧ delivers (trace s') (next_ref studio) (_eventInput (this studio)) = true
    ∧ delivers (trace s') (_eventOutput (this studio)) (next_ref studio) = true
    ∧ (∀ x y, delivers (trace studio) x y = true →
              delivers (trace s') x y = true).
Proof.
  apply (addSingleInput_constructs_stores_subscribes
           studio "mouse" propagate MouseInput).
  vm_compute. reflexivity.
Defined.

(** C8: for a key with an attached source, unsubscribeInput removes both
    subscriptions: afterwards an event emitted by the source is not
    delivered to the input sink, and an event emitted on the output sink is
    not delivered to the source. *)
Theorem unsubscribeInput_severs_both_directions
    (s : State) (key : string) (r : ref) :
  prop_get key (_syncs (this s)) = Some (Source r) →
  let ei := _eventInput (this s) in
  let eo := _eventOutput (this s) in
  ∃ s',
    unsubscribeInput key s = (s', Normal tt)
    ∧ trace s' = trace s ++ [Unsubscribe r ei; Unsubscribe eo r]
    ∧ this s' = this s
    ∧ delivers (trace s') r ei = false
    ∧ delivers (trace s') eo r = false.
Proof.
  intros Hget ei eo. eexists. split; [by apply unsubscribeInput_run|]. cbn.
  split; [done|]. split; [done|].
  unfold delivers. rewrite wiring_app. cbn.
  split; apply bool_decide_eq_false; intros Hin.
  - apply elem_of_difference in Hin as [Hin _].
    apply elem_of_difference in Hin as [_ Hn]. by apply Hn, elem_of_singleton.
  - apply elem_of_difference in Hin as [_ Hn]. by apply Hn, elem_of_singleton.
Qed.

Lemma unsubscribeInput_severs_both_directions_witness :
  ∃ s',
    unsubscribeInput "mouse" studio = (s', Normal tt)
    ∧ trace s' = trace studio ++ [Unsubscribe 2 0; Unsubscribe 1 2]
    ∧ this s' = this studio
    ∧ delivers (trace s') 2 0 = false
    ∧ delivers (trace s') 1 2 = false.
Proof.
  apply (unsubscribeInput_severs_both_directions studio "mouse" 2).
  vm_compute. reflexivity.
Defined.

(** C10: when [this._syncs] holds nothing under the key, subscribeInput
    and unsubscribeInput both throw (the method call on the missing
    instance is a TypeError) and neither changes the state. *)
Theorem subscribeInput_absent_key_throws (s : State) (key : string) :
  prop_get key (_syncs (this s)) = None →
  subscribeInput key s = (s, Throw TypeError)
  ∧ unsubscribeInput key s = (s, Throw TypeError).
Proof.
  intros Hget. split.
  - by apply subscribeInput_absent.
  - by apply unsubscribeInput_absent.
Qed.

Lemma subscribeInput_absent_key_throws_witness :
  subscribeInput "scroll" studio = (studio, Throw TypeError)
  ∧ unsubscribeInput "scroll" studio = (studio, Throw TypeError).
Proof.
  apply (subscribeInput_absent_key_throws studio "scroll").
  vm_compute. reflexivity.
Defined.

(** C3 (evaluation of the code where it departs from the claim):
    "constructor" is not in the registry, yet addInput(["constructor"])
    does not skip it.  The value read from the registry under that key is
    the [Object] function every object inherits, so the call stores the
    plain object [new Object(undefined)] under the key and then throws a
    TypeError when it calls [subscribe] on it. *)
Theorem addInput_inherited_name_throws :
  registry studio !! "constructor" = None
  ∧ prop_get "constructor" (_syncs (this studio)) = None
  ∧ (addInput (SyncArray ["constructor"]) studio).2 = Throw TypeError
  ∧ prop_get "constructor"
      (_syncs (this (addInput (SyncArray ["constructor"]) studio).1))
    = Some (Plain VUndefined).
Proof. vm_compute. done. Qed.










(** * Further properties of registration *)

(** X1: the registry is append only.  Whatever object is registered, and
    whether the call returns or throws, a key that was bound keeps the
    class it was bound to. *)
Theorem register_never_rebinds
    (syncObject : list (string * Factory)) (s : State)
    (key : string) (G : Factory) :
  registry s !! key = Some G →
  registry (register syncObject s).1 !! key = Some G.
Proof.
  intros Hk. destruct (register syncObject s) as [s' c] eqn:Hrun.
  by eapply register_keeps_bound.
Qed.

Lemma register_never_rebinds_witness :
  registry (register [("scroll", ScrollInput); ("mouse", TouchInput)]
              (boot inputs)).1 !! "mouse" = Some MouseInput.
Proof.
  apply (register_never_rebinds
           [("scroll", ScrollInput); ("mouse", TouchInput)] (boot inputs)
           "mouse" MouseInput).
  vm_compute. reflexivity.
Defined.

(** X2: register only ever writes the registry: it allocates nothing,
    calls no collaborator and leaves the instance alone; and the only
    error it can raise is the conflict error. *)
Theorem register_writes_only_registry
    (syncObject : list (string * Factory)) (s : State) :
  next_ref (register syncObject s).1 = next_ref s
  ∧ trace (register syncObject s).1 = trace s
  ∧ this (register syncObject s).1 = this s
  ∧ ((register syncObject s).2 = Normal tt
     ∨ (register syncObject s).2 = Throw (Error conflict_message)).
Proof.
  destruct (register syncObject s) as [s' c] eqn:Hrun.
  destruct (register_frame _ _ _ _ Hrun) as (Hn & Ht & Hthis).
  repeat (split; [done|]).
  pose proof (register_outcome syncObject s) as Hout. by rewrite Hrun in Hout.
Qed.

(** X3: registering an object whose keys are all unbound, and none of
    them a name inherited from [Object.prototype], returns normally, binds
    every key to its class and changes no other key. *)
Theorem register_fresh_keys
    (syncObject : list (string * Factory)) (s : State) :
  NoDup syncObject.*1 →
  (∀ key, key ∈ syncObject.*1 →
     registry s !! key = None ∧ inherited key = None) →
  (register syncObject s).2 = Normal tt
  ∧ (∀ key F, (key, F) ∈ syncObject →
       registry (register syncObject s).1 !! key = Some F)
  ∧ (∀ key, key ∉ syncObject.*1 →
       registry (register syncObject s).1 !! key = registry s !! key).
Proof.
  intros Hnd Hfree. split; [|split].
  - revert s Hfree.
    induction syncObject as [|[k F] rest IH]; intros s Hfree; [done|].
    cbn in Hnd. apply NoDup_cons in Hnd as [Hk Hnd].
    destruct (Hfree k (list_elem_of_here _ _)) as [Hk0 Hkb].
    rewrite register_absent_inserts by done.
    apply IH; [done|]. intros key Hkey. cbn.
    rewrite lookup_insert_ne by (intros ->; done).
    by apply Hfree, list_elem_of_further.
  - revert s Hfree.
    induction syncObject as [|[k F] rest IH]; intros s Hfree key F' Hin.
    { by apply elem_of_nil in Hin. }
    cbn in Hnd. apply NoDup_cons in Hnd as [Hk Hnd].
    destruct (Hfree k (list_elem_of_here _ _)) as [Hk0 Hkb].
    rewrite register_absent_inserts by done.
    apply elem_of_cons in Hin as [Heq|Hin].
    + inversion Heq; subst.
      rewrite register_other_keys by done. cbn. apply lookup_insert_eq.
    + apply IH; [done| |done]. intros key' Hkey'. cbn.
      rewrite lookup_insert_ne by (intros ->; done).
      by apply Hfree, list_elem_of_further.
  - intros key Hkey. by apply register_other_keys.
Qed.

Lemma register_fresh_keys_witness :
  (register [("mouse", MouseInput); ("touch", TouchInput)] (boot ∅)).2
  = Normal tt
  ∧ (∀ key F, (key, F) ∈ [("mouse", MouseInput); ("touch", TouchInput)] →
       registry (register [("mouse", MouseInput); ("touch", TouchInput)]
                   (boot ∅)).1 !! key = Some F)
  ∧ (∀ key, key ∉ [("mouse", MouseInput); ("touch", TouchInput)].*1 →
       registry (register [("mouse", MouseInput); ("touch", TouchInput)]
                   (boot ∅)).1 !! key = registry (boot ∅) !! key).
Proof.
  apply (register_fresh_keys
           [("mouse", MouseInput); ("touch", TouchInput)] (boot ∅)).
  - apply (bool_decide_unpack _). vm_compute. exact I.
  - intros key Hkey. cbn in Hkey.
    apply elem_of_cons in Hkey as [->|Hkey]; [by vm_compute|].
    apply list_elem_of_singleton in Hkey as ->. by vm_compute.
Defined.

(** X4: on an object (distinct keys), register throws the conflict error
    and nothing else, and only at a key that reads as taken: a key of the
    object that was bound, before the call, to a class other than the one
    given, or an unbound key that is a name inherited from
    [Object.prototype]. *)
Theorem register_throws_only_on_conflict
    (syncObject : list (string * Factory)) (s : State) (e : error) :
  NoDup syncObject.*1 →
  (register syncObject s).2 = Throw e →
  e = Error conflict_message
  ∧ ∃ key F, (key, F) ∈ syncObject
             ∧ ((∃ G, registry s !! key = Some G ∧ G ≠ F)
                ∨ (registry s !! key = None ∧ is_Some (inherited key))).
Proof.
  intros Hnd Hthrow. split.
  { destruct (register_outcome syncObject s) as [Hn|Ht]; congruence. }
  revert s Hthrow.
  induction syncObject as [|[k F] rest IH]; intros s Hthrow; [done|].
  cbn in Hnd. apply NoDup_cons in Hnd as [Hk Hnd].
  destruct (register_cases s k F rest)
    as [[_ Hr]|[[_ Hwhy]|(Hnone & _ & Hr)]].
  - by rewrite Hr in Hthrow.
  - exists k, F. split; [apply list_elem_of_here|done].
  - rewrite Hr in Hthrow.
    destruct (IH Hnd _ Hthrow) as (key & F' & Hin & Hwhy).
    assert (key ≠ k) as Hne.
    { intros ->. apply Hk. apply list_elem_of_fmap. by exists (k, F'). }
    exists key, F'. split; [by apply list_elem_of_further|].
    cbn in Hwhy. by rewrite lookup_insert_ne in Hwhy.
Qed.

Lemma register_throws_only_on_conflict_witness :
  Error conflict_message = Error conflict_message
  ∧ ∃ key F,
      (key, F) ∈ [("scroll", ScrollInput); ("mouse", TouchInput)]
      ∧ ((∃ G, registry (boot inputs) !! key = Some G ∧ G ≠ F)
         ∨ (registry (boot inputs) !! key = None ∧ is_Some (inherited key))).
Proof.
  apply (register_throws_only_on_conflict
           [("scroll", ScrollInput); ("mouse", TouchInput)] (boot inputs)
           (Error conflict_message)).
  - apply (bool_decide_unpack _). vm_compute. exact I.
  - vm_compute. reflexivity.
Defined.

(** X5: there is no rollback.  When the entries met before a conflicting
    one are all unbound and none of their keys is a name inherited from
    [Object.prototype], the call throws at the conflict and the keys of
    those earlier entries stay registered. *)
Theorem register_conflict_keeps_earlier_entries
    (earlier later : list (string * Factory)) (s : State)
    (key : string) (F G : Factory) :
  NoDup earlier.*1 →
  (∀ k, k ∈ earlier.*1 → registry s !! k = None ∧ inherited k = None) →
  registry s !! key = Some G → G ≠ F →
  (register (earlier ++ (key, F) :: later) s).2
  = Throw (Error conflict_message)
  ∧ (∀ k F', (k, F') ∈ earlier →
       registry (register (earlier ++ (key, F) :: later) s).1 !! k = Some F')
  ∧ registry (register (earlier ++ (key, F) :: later) s).1 !! key = Some G.
Proof.
  intros Hnd Hfree HG Hne. split; [|split].
  - revert s Hfree HG.
    induction earlier as [|[k F0] earlier IH]; intros s Hfree HG; cbn [app].
    { by rewrite (register_conflict_throws _ _ _ G). }
    cbn in Hnd. apply NoDup_cons in Hnd as [Hk Hnd].
    destruct (Hfree k (list_elem_of_here _ _)) as [Hk0 Hkb].
    rewrite register_absent_inserts by done.
    apply IH; [done| |].
    + intros k' Hk'. cbn. rewrite lookup_insert_ne by (intros ->; done).
      by apply Hfree, list_elem_of_further.
    + cbn. rewrite lookup_insert_ne; [done|]. intros ->. congruence.
  - revert s Hfree HG.
    induction earlier as [|[k F0] earlier IH]; intros s Hfree HG k' F' Hin.
    { by apply elem_of_nil in Hin. }
    cbn in Hnd. apply NoDup_cons in Hnd as [Hk Hnd]. cbn [app].
    destruct (Hfree k (list_elem_of_here _ _)) as [Hk0 Hkb].
    rewrite register_absent_inserts by done.
    apply elem_of_cons in Hin as [Heq|Hin].
    + inversion Heq; subst.
      apply register_never_rebinds_aux. cbn. apply lookup_insert_eq.
    + apply IH; [done| | |done].
      * intros k'' Hk''. cbn. rewrite lookup_insert_ne by (intros ->; done).
        by apply Hfree, list_elem_of_further.
      * cbn. rewrite lookup_insert_ne; [done|]. intros ->. congruence.
  - by apply register_never_rebinds_aux.
Qed.

Lemma register_conflict_keeps_earlier_entries_witness :
  (register ([("scroll", ScrollInput)] ++ ("mouse", TouchInput) :: [])
     (boot inputs)).2
  = Throw (Error conflict_message)
  ∧ (∀ k F', (k, F') ∈ [("scroll", ScrollInput)] →
       registry (register ([("scroll", ScrollInput)]
                             ++ ("mouse", TouchInput) :: [])
                   (boot inputs)).1 !! k = Some F')
  ∧ registry (register ([("scroll", ScrollInput)]
                          ++ ("mouse", TouchInput) :: [])
                (boot inputs)).1 !! "mouse" = Some MouseInput.
Proof.
  apply (register_conflict_keeps_earlier_entries
           [("scroll", ScrollInput)] [] (boot inputs)
           "mouse" TouchInput MouseInput).
  - apply (bool_decide_unpack _). vm_compute. exact I.
  - intros k Hk. apply list_elem_of_singleton in Hk. subst k.
    by vm_compute.
  - vm_compute. reflexivity.
  - vm_compute. discriminate.
Defined.

(** X6: a registration that returned normally can be repeated at will:
    the same call, made again on the state it left, returns normally and
    changes nothing. *)
Theorem register_repeat_is_noop
    (syncObject : list (string * Factory)) (s : State) :
  (register syncObject s).2 = Normal tt →
  register syncObject (register syncObject s).1
  = ((register syncObject s).1, Normal tt).
Proof.
  destruct syncObject as [|[k F] rest]; [done|]. intros Hok.
  destruct (register_cases s k F rest)
    as [[Hreg Hr]|[[Hr _]|(Hnone & Hb & Hr)]].
  - rewrite Hr. cbn [fst]. by apply register_redundant_returns.
  - by rewrite Hr in Hok.
  - apply register_redundant_returns. rewrite Hr.
    apply register_never_rebinds_aux. cbn. apply lookup_insert_eq.
Qed.

Lemma register_repeat_is_noop_witness :
  register [("mouse", MouseInput); ("touch", TouchInput)]
    (register [("mouse", MouseInput); ("touch", TouchInput)] (boot ∅)).1
  = ((register [("mouse", MouseInput); ("touch", TouchInput)] (boot ∅)).1,
     Normal tt).
Proof.
  apply (register_repeat_is_noop
           [("mouse", MouseInput); ("touch", TouchInput)] (boot ∅)).
  vm_compute. reflexivity.
Defined.

(** * Further properties of the aggregator *)


(** X22: when the key is neither a name inherited from [Object.prototype]
    nor bound to another class, registering {key: F} twice succeeds both
    times and the second call leaves the registry (indeed the whole state)
    as the first call left it, with the key bound to F. *)
Theorem register_twice_same_factory (s : State) (key : string) (F : Factory) :
  inherited key = None →
  (∀ G, registry s !! key = Some G → G = F) →
  ∃ s1,
    register [(key, F)] s = (s1, Normal tt)
    ∧ register [(key, F)] s1 = (s1, Normal tt)
    ∧ registry s1 !! key = Some F.
Proof.
  intros Hb Hfree. destruct (registry s !! key) as [G|] eqn:Hk.
  - rewrite (Hfree G eq_refl) in Hk. exists s.
    by rewrite register_redundant_returns.
  - exists (set_registry <[key := F]> s).
    assert (registry (set_registry <[key := F]> s) !! key = Some F) as Hin
      by (cbn; apply lookup_insert_eq).
    split; [by rewrite register_absent_inserts|].
    split; [by apply register_redundant_returns|done].
Qed.

Lemma register_twice_same_factory_witness :
  ∃ s1,
    register [("mouse", MouseInput)] (boot ∅) = (s1, Normal tt)
    ∧ register [("mouse", MouseInput)] s1 = (s1, Normal tt)
    ∧ registry s1 !! "mouse" = Some MouseInput.
Proof.
  apply (register_twice_same_factory (boot ∅) "mouse" MouseInput).
  - by vm_compute.
  - intros G HG. cbn in HG. by rewrite lookup_empty in HG.
Defined.

(** * Further properties of the aggregator *)

Section AggregatorMore.
Implicit Types (s : State) (key k : string) (v : value) (syncs : Syncs).

(** The calls setOptions makes are option updates, however it ends. *)
Lemma setOptions_trace_any s v :
  ∃ t, trace (setOptions v s).1 = trace s ++ t
       ∧ Forall (λ c, ∃ r, c = SetOptions r v) t.
Proof.
  rewrite setOptions_unfold.
  apply (for_each_invariant
           (λ s', ∃ t, trace s' = trace s ++ t
                       ∧ Forall (λ c, ∃ r, c = SetOptions r v) t)).
  - intros key s' _ (t & Ht & Hall).
    destruct (setOptions_turn s' v key) as [(r & _ & ->)|[_ ->]];
      [|by exists t].
    cbn. exists (t ++ [SetOptions r v]). rewrite Ht, <- app_assoc.
    split; [done|]. apply Forall_app. split; [done|].
    constructor; [by exists r|done].
  - exists []. by rewrite app_nil_r.
Qed.

Lemma add_part_frame syncs s :
  registry (add_part syncs s).1 = registry s
  ∧ _eventInput (this (add_part syncs s).1) = _eventInput (this s)
  ∧ _eventOutput (this (add_part syncs s).1) = _eventOutput (this s)
  ∧ next_ref s ≤ next_ref (add_part syncs s).1.
Proof.
  rewrite add_part_state.
  destruct (syncs_truthy syncs); [apply addInput_frame|auto].
Qed.

Lemma options_part_frame v s :
  registry (options_part v s).1 = registry s
  ∧ this (options_part v s).1 = this s.
Proof.
  rewrite options_part_state.
  destruct (truthy v); [|done].
  by destruct (setOptions_frame s v) as (-> & -> & _).
Qed.

(** The instance and the registry the constructor leaves are those left
    by its add part. *)
Lemma new_GenericInput_this syncs v s :
  this (new_GenericInput syncs v s).1
  = this (add_part syncs (initialised s)).1
  ∧ registry (new_GenericInput syncs v s).1 = registry s.
Proof.
  destruct (add_part_frame syncs (initialised s)) as (Hreg & _).
  destruct (new_GenericInput_state syncs v s) as [->|[_ ->]]; [done|].
  by destruct (options_part_frame v (add_part syncs (initialised s)).1)
    as (-> & ->).
Qed.

(** A call to addInput that returns normally stores sources only. *)
Lemma only_sources_addInput syncs s :
  (addInput syncs s).2 = Normal tt →
  only_sources s → only_sources (addInput syncs s).1.
Proof.
  intros Hok Hsrc. apply addInput_normal in Hok.
  rewrite addInput_run by done. by apply only_sources_add_loop.
Qed.

(** So does a constructor call that returns normally. *)
Lemma only_sources_new_GenericInput syncs v s :
  (new_GenericInput syncs v s).2 = Normal tt →
  only_sources (new_GenericInput syncs v s).1.
Proof.
  intros Hok. unfold only_sources.
  destruct (new_GenericInput_this syncs v s) as [-> _].
  rewrite new_GenericInput_unfold in Hok. unfold bind in Hok.
  destruct (add_part syncs (initialised s)) as [s1 [[]|e]] eqn:Hadd;
    [|done].
  unfold add_part in Hadd. cbn [fst].
  destruct (syncs_truthy syncs).
  - assert (s1 = (addInput syncs (initialised s)).1) as ->
      by (by rewrite Hadd).
    apply only_sources_addInput; [by rewrite Hadd|]. by apply Forall_nil_2.
  - inversion Hadd; subst s1. by apply Forall_nil_2.
Qed.
End AggregatorMore.

(** X7: registration and lookup round trip.  Once {key: F} has been
    registered for an unbound key that is not a name inherited from
    [Object.prototype], addInput({key: options}) returns normally, builds
    the source with class F and those options, and stores it under the
    key. *)
Theorem register_then_addInput
    (s : State) (key : string) (F : Factory) (options : value) :
  registry s !! key = None → inherited key = None →
  let s1 := (register [(key, F)] s).1 in
  let r := next_ref s in
  ∃ s2,
    addInput (SyncObject [(key, options)]) s1 = (s2, Normal tt)
    ∧ prop_get key (_syncs (this s2)) = Some (Source r)
    ∧ trace s2 = trace s ++ [New r F options;
                             Subscribe r (_eventInput (this s));
                             Subscribe (_eventOutput (this s)) r].
Proof.
  intros Hfree Hb s1 r. unfold s1.
  rewrite register_absent_inserts by done. cbn [register ret fst].
  assert (registry (set_registry <[key := F]> s) !! key = Some F) as HF
    by (cbn; apply lookup_insert_eq).
  eexists. split.
  { cbn [addInput prop_keys fmap list_fmap for_each]. unfold bind.
    rewrite (addSingleInput_registered _ key _ F HF). reflexivity. }
  cbn. rewrite decide_True by done. cbn.
  split; [apply prop_get_set_eq|done].
Qed.

Lemma register_then_addInput_witness :
  let s1 := (register [("mouse", MouseInput)] (boot ∅)).1 in
  let r := next_ref (boot ∅) in
  ∃ s2,
    addInput (SyncObject [("mouse", propagate)]) s1 = (s2, Normal tt)
    ∧ prop_get "mouse" (_syncs (this s2)) = Some (Source r)
    ∧ trace s2 = trace (boot ∅)
                 ++ [New r MouseInput propagate;
                     Subscribe r (_eventInput (this (boot ∅)));
                     Subscribe (_eventOutput (this (boot ∅))) r].
Proof.
  apply (register_then_addInput (boot ∅) "mouse" MouseInput propagate).
  - vm_compute. reflexivity.
  - vm_compute. reflexivity.
Defined.

(** X8: addInput either returns normally or throws a TypeError, and it
    returns normally whenever no key of its argument is a name inherited
    from [Object.prototype].  However it ends, it leaves the registry and
    both sinks alone, makes only constructions and subscriptions, and
    never removes a key of [this._syncs]. *)
Theorem addInput_outcome_and_frame (syncs : Syncs) (s : State) :
  ((addInput syncs s).2 = Normal tt ∨ (addInput syncs s).2 = Throw TypeError)
  ∧ (Forall (λ key, inherited key = None) (keys_of syncs) →
     (addInput syncs s).2 = Normal tt)
  ∧ registry (addInput syncs s).1 = registry s
  ∧ _eventInput (this (addInput syncs s).1) = _eventInput (this s)
  ∧ _eventOutput (this (addInput syncs s).1) = _eventOutput (this s)
  ∧ (∃ added, trace (addInput syncs s).1 = trace s ++ added
              ∧ Forall is_attach_call added)
  ∧ (∀ key, key ∈ prop_keys (_syncs (this s)) →
            key ∈ prop_keys (_syncs (this (addInput syncs s).1))).
Proof.
  split; [apply addInput_outcome|]. split.
  { intros Hclear. rewrite addInput_run; [done|].
    by apply clear_names_clear. }
  destruct (addInput_frame syncs s) as (Hreg & Hei & Heo & _).
  repeat (split; [done|]). split.
  - destruct (addInput_sources syncs s) as (added & Ht & Hcalls & _).
    by exists added.
  - intros key. apply addInput_keys_incl.
Qed.

Lemma addInput_outcome_and_frame_witness :
  (addInput (SyncArray ["mouse"; "keyboard"]) studio).2 = Normal tt.
Proof.
  apply (proj1 (proj2 (addInput_outcome_and_frame
                         (SyncArray ["mouse"; "keyboard"]) studio))).
  apply (bool_decide_unpack _). vm_compute. exact I.
Defined.



(** X10: adding the keys of a sequence in one call is the same as adding
    a first part and then the rest in a second call. *)
Theorem addInput_sequence_splits (keys1 keys2 : list string) (s : State) :
  addInput (SyncArray (keys1 ++ keys2)) s
  = (addInput (SyncArray keys1) ;;; addInput (SyncArray keys2)) s.
Proof. cbn [addInput]. apply for_each_app. Qed.

(** X11: an object all of whose options are undefined is treated exactly
    as the array of its keys. *)
Theorem addInput_object_of_undefined
    (fields : list (string * value)) (s : State) :
  (∀ key v, (key, v) ∈ fields → v = VUndefined) →
  addInput (SyncObject fields) s = addInput (SyncArray (prop_keys fields)) s.
Proof.
  intros Hundef. cbn [addInput]. apply for_each_ext. intros k s' _.
  destruct (prop_get k fields) as [v|] eqn:Hget; [|done]. cbn.
  by rewrite (Hundef k v) by (by apply prop_get_Some_elem).
Qed.

Lemma addInput_object_of_undefined_witness :
  addInput (SyncObject [("mouse", VUndefined); ("touch", VUndefined)]) studio
  = addInput
      (SyncArray (prop_keys [("mouse", VUndefined); ("touch", VUndefined)]))
      studio.
Proof.
  apply (addInput_object_of_undefined
           [("mouse", VUndefined); ("touch", VUndefined)] studio).
  intros key v Hin.
  apply elem_of_cons in Hin as [Heq|Hin]; [by inversion Heq|].
  apply list_elem_of_singleton in Hin. by inversion Hin.
Defined.

(** X12: however the constructor ends, every source it leaves in
    [this._syncs] is subscribed both ways: the calls made during
    construction include the source subscribing the input sink and the
    output sink subscribing the source; and the constructor makes no
    unsubscribe call.  When the constructor returns normally,
    [this._syncs] holds sources only, so that everything it holds is
    subscribed both ways. *)
Theorem constructor_subscribes_every_source
    (syncs : Syncs) (options : value) (s : State) :
  let s' := (new_GenericInput syncs options s).1 in
  ∃ added,
    trace s' = trace s ++ added
    ∧ (∀ x y, Unsubscribe x y ∉ added)
    ∧ (∀ key r, (key, Source r) ∈ _syncs (this s') →
         Subscribe r (_eventInput (this s')) ∈ added
         ∧ Subscribe (_eventOutput (this s')) r ∈ added)
    ∧ ((new_GenericInput syncs options s).2 = Normal tt → only_sources s').
Proof.
  intros s'. set (s0 := initialised s).
  set (s1 := (add_part syncs s0).1).
  assert (∃ a, trace s1 = trace s0 ++ a
               ∧ Forall is_attach_call a
               ∧ ∀ k r, (k, Source r) ∈ _syncs (this s1) →
                   Subscribe r (_eventInput (this s0)) ∈ a
                   ∧ Subscribe (_eventOutput (this s0)) r ∈ a)
    as (a & Ha & Hattach & Hsub).
  { unfold s1. rewrite add_part_state. destruct (syncs_truthy syncs).
    - destruct (addInput_sources syncs s0) as (a & Ha & Hattach & Hsrc).
      exists a. split; [done|]. split; [done|]. intros k r Hin.
      destruct (Hsrc k r Hin) as [Hnil|?]; [|done].
      by apply elem_of_nil in Hnil.
    - exists []. rewrite app_nil_r. split; [done|]. split; [done|].
      intros k r Hin. by apply elem_of_nil in Hin. }
  assert (∃ t, trace s' = trace s1 ++ t
               ∧ ∀ x y, Unsubscribe x y ∉ t) as (t & Ht & Htail).
  { unfold s'.
    destruct (new_GenericInput_state syncs options s) as [->|[_ ->]].
    - exists []. rewrite app_nil_r. split; [reflexivity|].
      intros x y Hin. by apply elem_of_nil in Hin.
    - fold s0. fold s1. rewrite options_part_state.
      destruct (truthy options).
      2:{ exists []. rewrite app_nil_r. split; [reflexivity|].
          intros x y Hin. by apply elem_of_nil in Hin. }
      destruct (setOptions_trace_any s1 options) as (t & Ht & Hall).
      exists t. split; [done|]. intros x y Hin.
      apply (proj1 (Forall_forall _ _) Hall) in Hin as [r Hr]. done. }
  destruct (new_GenericInput_this syncs options s) as [Hthis _].
  destruct (add_part_frame syncs s0) as (_ & Hei & Heo & _).
  fold s' in Hthis. fold s0 in Hthis. fold s1 in Hthis, Hei, Heo.
  exists ([NewEventHandler (next_ref s); NewEventHandler (S (next_ref s));
           SetInputHandler (next_ref s); SetOutputHandler (S (next_ref s))]
          ++ a ++ t).
  split; [|split; [|split]]; [| | |apply only_sources_new_GenericInput].
  - rewrite Ht, Ha. cbn. by rewrite <- !app_assoc.
  - intros x y Hin. apply elem_of_app in Hin as [Hin|Hin].
    + repeat (apply elem_of_cons in Hin as [?|Hin]; [done|]).
      by apply elem_of_nil in Hin.
    + apply elem_of_app in Hin as [Hin|Hin]; [|by eapply Htail].
      apply (proj1 (Forall_forall _ _) Hattach) in Hin. done.
  - intros key r Hin. rewrite Hthis in Hin |- *. rewrite Hei, Heo.
    destruct (Hsub key r Hin) as [Hs1 Hs2].
    split; apply elem_of_app; right; apply elem_of_app; by left.
Qed.



(** X14: a constructor call made in a state whose references were all
    handed out by the allocator leaves a well-formed instance; its two
    sinks are distinct objects, and neither of them is one of the attached
    sources. *)
Theorem constructor_builds_well_formed_instance
    (syncs : Syncs) (options : value) (s : State) :
  Forall (λ c, Forall (λ r, r < next_ref s) (call_refs c)) (trace s) →
  (let s' := (new_GenericInput syncs options s).1 in
   wf s'
   ∧ _eventInput (this s') ≠ _eventOutput (this s')
   ∧ (_eventInput (this s') ∉ attached s')
   ∧ (_eventOutput (this s') ∉ attached s')).
Proof.
  intros Ht s'. split; [by apply wf_new_GenericInput|].
  unfold s', attached.
  destruct (new_GenericInput_this syncs options s) as [-> _].
  destruct (add_part_frame syncs (initialised s)) as (_ & -> & -> & _). cbn.
  split; [lia|].
  assert (∀ r, r ∈ attached (add_part syncs (initialised s)).1 →
               S (S (next_ref s)) ≤ r) as Hfresh.
  { intros r Hin. rewrite add_part_state in Hin.
    destruct (syncs_truthy syncs); [|by apply elem_of_nil in Hin].
    apply attached_addInput in Hin as [Hnil|Hle]; [|done].
    by apply elem_of_nil in Hnil. }
  split; intros Hin; apply Hfresh in Hin; lia.
Qed.

Lemma constructor_builds_well_formed_instance_witness :
  let s' := (new_GenericInput (SyncArray ["mouse"; "touch"]) propagate
               (boot inputs)).1 in
  wf s'
  ∧ _eventInput (this s') ≠ _eventOutput (this s')
  ∧ (_eventInput (this s') ∉ attached s')
  ∧ (_eventOutput (this s') ∉ attached s').
Proof.
  apply (constructor_builds_well_formed_instance
           (SyncArray ["mouse"; "touch"]) propagate (boot inputs)).
  vm_compute. constructor.
Defined.

(** Why the properties of setOptions below ask for a source map that
    holds sources only: on the aggregator [studio], after a call
    addInput(["constructor"]) that threw, the state is well-formed and the
    two sources are still attached, but setOptions throws a TypeError at
    the plain object stored under "constructor", after the two sources
    have received the options. *)
Lemma setOptions_after_failed_add_throws :
  let s := (addInput (SyncArray ["constructor"]) studio).1 in
  wf s
  ∧ prop_get "mouse" (_syncs (this s)) = Some (Source 2)
  ∧ attached s = [2; 3]
  ∧ (setOptions propagate s).2 = Throw TypeError
  ∧ (setOptions propagate (unsubscribeInput "mouse" s).1).2 = Throw TypeError
  ∧ trace (setOptions propagate s).1
    = trace s ++ [SetOptions 2 propagate; SetOptions 3 propagate].
Proof.
  split; [apply (bool_decide_unpack _); vm_compute; exact I|].
  vm_compute. done.
Qed.

(** X15: unsubscribing does not detach.  On a well-formed instance whose
    source map holds sources only, after unsubscribeInput(key) the
    instance is still stored under the key, and a following setOptions
    still calls its options update, once, with the value given. *)
Theorem unsubscribed_source_still_gets_options
    (s : State) (key : string) (r : ref) (options : value) :
  wf s → only_sources s →
  prop_get key (_syncs (this s)) = Some (Source r) →
  (let s1 := (unsubscribeInput key s).1 in
   let s2 := (setOptions options s1).1 in
   prop_get key (_syncs (this s1)) = Some (Source r)
   ∧ (setOptions options s1).2 = Normal tt
   ∧ setOptions_calls r (trace s2)
     = setOptions_calls r (trace s) ++ [options]).
Proof.
  intros Hwf Hsrc Hget s1 s2. unfold s2, s1.
  rewrite (unsubscribeInput_run s key r Hget). cbn [fst].
  pose proof Hwf as (Hk & Hv & _).
  rewrite setOptions_run by done. cbn.
  split; [done|]. split; [done|].
  rewrite !setOptions_calls_app. cbn. rewrite app_nil_r.
  rewrite setOptions_calls_forward; [done|done|].
  by apply (source_held_attached key).
Qed.

Lemma unsubscribed_source_still_gets_options_witness :
  let s1 := (unsubscribeInput "mouse" studio).1 in
  let s2 := (setOptions propagate s1).1 in
  prop_get "mouse" (_syncs (this s1)) = Some (Source 2)
  ∧ (setOptions propagate s1).2 = Normal tt
  ∧ setOptions_calls 2 (trace s2)
    = setOptions_calls 2 (trace studio) ++ [propagate].
Proof.
  apply (unsubscribed_source_still_gets_options studio "mouse" 2 propagate).
  - apply (bool_decide_unpack _). vm_compute. exact I.
  - apply (bool_decide_unpack _). vm_compute. exact I.
  - vm_compute. reflexivity.
Defined.

(** X16: only register writes the registry.  The constructor, addInput,
    setOptions, subscribeInput and unsubscribeInput leave every binding as
    it was, whatever their arguments and whether they return or throw. *)
Theorem methods_never_write_registry
    (s : State) (syncs : Syncs) (options : value) (key : string) :
  registry (new_GenericInput syncs options s).1 = registry s
  ∧ registry (addInput syncs s).1 = registry s
  ∧ registry (setOptions options s).1 = registry s
  ∧ registry (subscribeInput key s).1 = registry s
  ∧ registry (unsubscribeInput key s).1 = registry s.
Proof.
  split; [|split; [|split; [|split]]].
  - apply new_GenericInput_this.
  - apply addInput_frame.
  - apply setOptions_frame.
  - destruct (prop_get key (_syncs (this s))) as [[r|v]|] eqn:Hget.
    + by rewrite (subscribeInput_run s key r).
    + by rewrite (subscribeInput_plain s key v).
    + by rewrite subscribeInput_absent.
  - destruct (prop_get key (_syncs (this s))) as [[r|v]|] eqn:Hget.
    + by rewrite (unsubscribeInput_run s key r).
    + by rewrite (unsubscribeInput_plain s key v).
    + by rewrite unsubscribeInput_absent.
Qed.

(** X17: an overwritten source is out of reach.  When a registered key is
    added twice on a well-formed instance, [this._syncs] holds the second
    source, and unsubscribeInput(key) unsubscribes that one only: both
    unsubscribe calls name the second source.  Under the emitter contract,
    the first source is therefore still delivered to and from the sinks. *)
Theorem overwritten_source_stays_subscribed
    (s : State) (key : string) (F : Factory) :
  wf s →
  registry s !! key = Some F →
  (let first := next_ref s in
   let second := S (next_ref s) in
   let ei := _eventInput (this s) in
   let eo := _eventOutput (this s) in
   let s2 := (addInput (SyncArray [key; key]) s).1 in
   let s3 := (unsubscribeInput key s2).1 in
   prop_get key (_syncs (this s2)) = Some (Source second)
   ∧ (unsubscribeInput key s2).2 = Normal tt
   ∧ trace s3 = trace s2 ++ [Unsubscribe second ei; Unsubscribe eo second]
   ∧ delivers (trace s3) first ei = true
   ∧ delivers (trace s3) eo first = true
   ∧ delivers (trace s3) second ei = false
   ∧ delivers (trace s3) eo second = false).
Proof.
  intros (_ & _ & _ & Hlti & Hlto & _) HF first second ei eo s2 s3.
  assert (s2 = attach key F VUndefined (attach key F VUndefined s)) as Hs2.
  { unfold s2. rewrite addInput_run.
    - cbn [keys_of foldl fst].
      unfold add_step. rewrite HF. cbn [registry attach]. by rewrite HF.
    - cbn [keys_of]. repeat constructor; by apply (reads_builtin_bound s key F). }
  assert (prop_get key (_syncs (this s2)) = Some (Source second)) as Hget.
  { rewrite Hs2. cbn. apply prop_get_set_eq. }
  assert (_eventInput (this s2) = ei ∧ _eventOutput (this s2) = eo)
    as [Hei Heo] by (by rewrite Hs2).
  split; [done|]. unfold s3.
  rewrite (unsubscribeInput_run s2 key second Hget). cbn [fst snd trace].
  rewrite Hei, Heo. split; [done|]. split; [done|].
  unfold delivers. rewrite wiring_app, Hs2. cbn [attach trace].
  rewrite wiring_app, wiring_app. cbn.
  fold first. fold second. fold ei. fold eo.
  assert (first ≠ second ∧ eo ≠ first ∧ eo ≠ second) as (Hne & Hne1 & Hne2)
    by (unfold first, second, eo; lia).
  split; [|split; [|split]].
  - apply bool_decide_eq_true.
    apply elem_of_difference; split; [apply elem_of_difference; split|].
    + set_solver.
    + rewrite elem_of_singleton. intros Heq. by inversion Heq.
    + rewrite elem_of_singleton. intros Heq. by inversion Heq.
  - apply bool_decide_eq_true.
    apply elem_of_difference; split; [apply elem_of_difference; split|].
    + set_solver.
    + rewrite elem_of_singleton. intros Heq. by inversion Heq.
    + rewrite elem_of_singleton. intros Heq. by inversion Heq.
  - apply bool_decide_eq_false. intros Hin.
    apply elem_of_difference in Hin as [Hin _].
    apply elem_of_difference in Hin as [_ Hn]. by apply Hn, elem_of_singleton.
  - apply bool_decide_eq_false. intros Hin.
    apply elem_of_difference in Hin as [_ Hn]. by apply Hn, elem_of_singleton.
Qed.

Lemma overwritten_source_stays_subscribed_witness :
  let s2 := (addInput (SyncArray ["mouse"; "mouse"]) studio).1 in
  let s3 := (unsubscribeInput "mouse" s2).1 in
  prop_get "mouse" (_syncs (this s2)) = Some (Source 5)
  ∧ (unsubscribeInput "mouse" s2).2 = Normal tt
  ∧ trace s3 = trace s2 ++ [Unsubscribe 5 0; Unsubscribe 1 5]
  ∧ delivers (trace s3) 4 0 = true
  ∧ delivers (trace s3) 1 4 = true
  ∧ delivers (trace s3) 5 0 = false
  ∧ delivers (trace s3) 1 5 = false.
Proof.
  apply (overwritten_source_stays_subscribed studio "mouse" MouseInput).
  - apply (bool_decide_unpack _). vm_compute. exact I.
  - vm_compute. reflexivity.
Defined.



(** X19: option updates reach every attached source in call order: after
    two setOptions calls on a well-formed instance whose source map holds
    sources only, each attached source has received the first value and
    then the second, and nothing else. *)
Theorem setOptions_twice_in_order
    (s : State) (first second : value) (r : ref) :
  wf s → only_sources s → r ∈ attached s →
  (setOptions first ;;; setOptions second) s
  = (((setOptions first ;;; setOptions second) s).1, Normal tt)
  ∧ setOptions_calls r (trace ((setOptions first ;;; setOptions second) s).1)
    = setOptions_calls r (trace s) ++ [first; second].
Proof.
  intros Hwf Hsrc Hr. pose proof Hwf as (Hk & Hv & _).
  unfold bind. rewrite setOptions_run by done.
  rewrite setOptions_run by done. cbn.
  split; [done|]. unfold attached. cbn.
  rewrite !setOptions_calls_app, !setOptions_calls_forward by done.
  by rewrite <- app_assoc.
Qed.

Lemma setOptions_twice_in_order_witness :
  (setOptions propagate ;;; setOptions VNull) studio
  = (((setOptions propagate ;;; setOptions VNull) studio).1, Normal tt)
  ∧ setOptions_calls 3
      (trace ((setOptions propagate ;;; setOptions VNull) studio).1)
    = setOptions_calls 3 (trace studio) ++ [propagate; VNull].
Proof.
  apply (setOptions_twice_in_order studio propagate VNull 3).
  - apply (bool_decide_unpack _). vm_compute. exact I.
  - apply (bool_decide_unpack _). vm_compute. exact I.
  - apply (bool_decide_unpack _). vm_compute. exact I.
Defined.

(** X20: subscribing again undoes an unsubscription.  For a source that
    is delivered to and from the sinks, unsubscribeInput(key) followed by
    subscribeInput(key) returns normally and, under the emitter contract,
    leaves exactly the deliveries there were before. *)
Theorem resubscribe_restores_deliveries (s : State) (key : string) (r : ref) :
  prop_get key (_syncs (this s)) = Some (Source r) →
  delivers (trace s) r (_eventInput (this s)) = true →
  delivers (trace s) (_eventOutput (this s)) r = true →
  (unsubscribeInput key ;;; subscribeInput key) s
  = (((unsubscribeInput key ;;; subscribeInput key) s).1, Normal tt)
  ∧ wiring (trace ((unsubscribeInput key ;;; subscribeInput key) s).1)
    = wiring (trace s)
  ∧ this ((unsubscribeInput key ;;; subscribeInput key) s).1 = this s.
Proof.
  intros Hget Hin Hout. unfold bind.
  rewrite (unsubscribeInput_run s key r Hget).
  rewrite (subscribeInput_run _ key r) by done. cbn.
  split; [done|]. split; [|done].
  apply bool_decide_eq_true in Hin, Hout.
  rewrite !wiring_app. cbn.
  apply set_eq. intros p.
  rewrite !elem_of_union, !elem_of_difference, !elem_of_singleton.
  split.
  - intros [[[[? _] _] | ->] | ->]; done.
  - intros Hp.
    destruct (decide (p = (_eventOutput (this s), r))) as [->|Hne1]; [by right|].
    destruct (decide (p = (r, _eventInput (this s)))) as [->|Hne2];
      [by left; right|].
    by left; left.
Qed.

Lemma resubscribe_restores_deliveries_witness :
  (unsubscribeInput "touch" ;;; subscribeInput "touch") studio
  = (((unsubscribeInput "touch" ;;; subscribeInput "touch") studio).1,
     Normal tt)
  ∧ wiring (trace ((unsubscribeInput "touch" ;;; subscribeInput "touch")
                     studio).1)
    = wiring (trace studio)
  ∧ this ((unsubscribeInput "touch" ;;; subscribeInput "touch") studio).1
    = this studio.
Proof.
  apply (resubscribe_restores_deliveries studio "touch" 3).
  - vm_compute. reflexivity.
  - vm_compute. reflexivity.
  - vm_compute. reflexivity.
Defined.

(** X21: a key that is neither registered nor a name inherited from
    [Object.prototype] is skipped.  addInput on a sequence that contains
    it does exactly what it does without that occurrence of the key; what
    [this._syncs] holds under the key is unchanged, however the call
    ends; and on the one-key sequence nothing changes and no error is
    raised. *)
Theorem addInput_unregistered_key_is_skipped
    (s : State) (key : string) (before after : list string) :
  registry s !! key = None → inherited key = None →
  addInput (SyncArray (before ++ key :: after)) s
  = addInput (SyncArray (before ++ after)) s
  ∧ prop_get key
      (_syncs (this (addInput (SyncArray (before ++ key :: after)) s).1))
    = prop_get key (_syncs (this s))
  ∧ addInput (SyncArray [key]) s = (s, Normal tt).
Proof.
  intros Hreg Hclear. split; [|split].
  - cbn [addInput]. rewrite !for_each_app. unfold bind.
    destruct (addInput_frame (SyncArray before) s) as (Hfr & _).
    cbn [addInput] in Hfr.
    destruct (for_each before _ s) as [s1 [[]|e]]; [|done].
    cbn [for_each fst] in *. unfold bind.
    rewrite addSingleInput_unregistered; [done| |done]. by rewrite Hfr.
  - by apply addInput_skipped.
  - cbn [addInput for_each]. unfold bind.
    by rewrite addSingleInput_unregistered.
Qed.

Lemma addInput_unregistered_key_is_skipped_witness :
  addInput (SyncArray (["mouse"] ++ "keyboard" :: ["touch"])) studio
  = addInput (SyncArray (["mouse"] ++ ["touch"])) studio
  ∧ prop_get "keyboard"
      (_syncs (this (addInput
                       (SyncArray (["mouse"] ++ "keyboard" :: ["touch"]))
                       studio).1))
    = prop_get "keyboard" (_syncs (this studio))
  ∧ addInput (SyncArray ["keyboard"]) studio = (studio, Normal tt).
Proof.
  apply (addInput_unregistered_key_is_skipped studio "keyboard"
           ["mouse"] ["touch"]).
  - vm_compute. reflexivity.
  - vm_compute. reflexivity.
Defined.

(** * Inherited names and enumeration order *)

(** X23: no name inherited from [Object.prototype] is ever bound in the
    registry.  If none is bound before a call to register, none is bound
    after it, whatever object is registered and whether the call returns
    or throws. *)
Theorem register_never_binds_inherited_name
    (syncObject : list (string * Factory)) (s : State) :
  (∀ key, is_Some (inherited key) → registry s !! key = None) →
  ∀ key, is_Some (inherited key) →
         registry (register syncObject s).1 !! key = None.
Proof.
  revert s. induction syncObject as [|[k F] rest IH]; intros s Hclean key Hk.
  { by apply Hclean. }
  cbn [register]. unfold bind, gets. cbn.
  destruct (registry_get (registry s) k) as [c|] eqn:Hget.
  - destruct (decide (c = Class F)); cbn; by apply Hclean.
  - unfold modify. cbn. apply IH; [|done]. intros key' Hk'. cbn.
    rewrite lookup_insert_ne; [by apply Hclean|]. intros ->.
    unfold registry_get in Hget.
    destruct (registry s !! key') as [G|]; [done|].
    destruct Hk' as [b Hb]. by rewrite Hb in Hget.
Qed.

Lemma register_never_binds_inherited_name_witness :
  registry (register [("mouse", MouseInput); ("toString", TouchInput)]
              (boot ∅)).1 !! "toString" = None.
Proof.
  apply (register_never_binds_inherited_name
           [("mouse", MouseInput); ("toString", TouchInput)] (boot ∅)).
  - intros key _. apply lookup_empty.
  - vm_compute. by eexists.
Defined.

(** X24: [this._syncs] is enumerated with array indices first.  When two
    registered keys are added to an instance with no source, the second
    of them one that is enumerated before the first (an array index after
    a name, or a smaller index after a larger one), setOptions visits the
    source built last before the source built first. *)
Theorem setOptions_visits_array_indices_first
    (s : State) (key k : string) (F G : Factory) (options : value) :
  _syncs (this s) = [] →
  registry s !! k = Some G → registry s !! key = Some F →
  key ≠ k → precedes key k = true →
  (let s1 := (addInput (SyncArray [k; key]) s).1 in
   _syncs (this s1)
   = [(key, Source (S (next_ref s))); (k, Source (next_ref s))]
   ∧ setOptions options s1
     = (mkState (registry s1) (next_ref s1)
          (trace s1 ++ [SetOptions (S (next_ref s)) options;
                        SetOptions (next_ref s) options])
          (this s1),
        Normal tt)).
Proof.
  intros Hnone HG HF Hne Hprec s1.
  assert (_syncs (this s1)
          = [(key, Source (S (next_ref s))); (k, Source (next_ref s))])
    as Hsyncs.
  { unfold s1. rewrite addInput_run.
    - cbn [keys_of foldl fst]. unfold add_step. rewrite HG.
      cbn [registry attach]. rewrite HF. cbn. rewrite Hnone.
      unfold prop_set. cbn. rewrite decide_False by done. cbn.
      by rewrite Hprec.
    - cbn [keys_of]. repeat constructor.
      + by apply (reads_builtin_bound s k G).
      + by apply (reads_builtin_bound s key F). }
  split; [done|].
  rewrite setOptions_run.
  - unfold attached. by rewrite Hsyncs.
  - rewrite Hsyncs. cbn. apply NoDup_cons. split.
    + intros Hin. by apply list_elem_of_singleton in Hin.
    + apply NoDup_singleton.
  - unfold only_sources. rewrite Hsyncs. cbn.
    repeat constructor; by eexists.
Qed.

Lemma setOptions_visits_array_indices_first_witness :
  let s := boot (<[ "1" := ScrollInput ]> inputs) in
  let s1 := (addInput (SyncArray ["mouse"; "1"]) s).1 in
  _syncs (this s1) = [("1", Source 1); ("mouse", Source 0)]
  ∧ setOptions propagate s1
    = (mkState (registry s1) (next_ref s1)
         (trace s1 ++ [SetOptions 1 propagate; SetOptions 0 propagate])
         (this s1),
       Normal tt).
Proof.
  apply (setOptions_visits_array_indices_first
           (boot (<[ "1" := ScrollInput ]> inputs)) "1" "mouse"
           ScrollInput MouseInput propagate).
  - reflexivity.
  - vm_compute. reflexivity.
  - vm_compute. reflexivity.
  - apply (bool_decide_unpack _). vm_compute. exact I.
  - vm_compute. reflexivity.
Defined.
